(** * obspy.imaging.spectrogram: FFT-size selection and the spectrogram pipeline

    A shallow embedding of [obspy/imaging/spectrogram.py].

    Python floats are modelled by the rationals [Q] with exact arithmetic
    (every finite float is a rational).  Rounding, overflow, [nan] and
    [inf] are outside the model: where the source would leave the finite
    floats ([np.log2] of a non-positive number) the model stops with
    [NonFinite].  Integers are [Z], arrays are lists, exceptions are values
    of [exn], and the calls into matplotlib are recorded in a trace. *)

From Stdlib Require Import ZArith QArith Qabs Qround Qpower Qminmax.
From Stdlib Require Import String List Sorted Bool Lia Lqa.
Import ListNotations.

Local Open Scope Z_scope.
Local Open Scope Q_scope.

(** ** Numeric primitives *)

(** [M.floor(np.log2(x))] for [0 < x], computed exactly: the integer [k]
    with [2^k <= x < 2^(k+1)] (see [floor_log2_spec]). *)
Definition floor_log2 (x : Q) : Z :=
  if Qle_bool 1 x then Z.log2 (Qfloor x) else (- Z.log2_up (Qceiling (/ x)))%Z.

(** [M.ceil(np.log2(x))] for [0 < x], computed exactly: the integer [k]
    with [2^(k-1) < x <= 2^k] (see [ceil_log2_spec]). *)
Definition ceil_log2 (x : Q) : Z :=
  if Qle_bool 1 x then Z.log2_up (Qceiling x) else (- Z.log2 (Qfloor (/ x)))%Z.

(** [M.pow(2, k)] for an integral exponent. *)
Definition pow2 (k : Z) : Q := 2 ^ k.

(** [int(x)]: truncation toward zero. *)
Definition int (x : Q) : Z := Z.quot (Qnum x) (Z.pos (Qden x)).

(** ** nearestPow2 (lines 40-59)

    [None] stands for [x <= 0], where [np.log2] yields [-inf] or [nan]. *)
Definition nearestPow2 (x : Q) : option Q :=
  if Qlt_le_dec 0 x then
    let a := pow2 (ceil_log2 x) in
    let b := pow2 (floor_log2 x) in
    if Qlt_le_dec (Qabs (a - x)) (Qabs (b - x)) then Some a else Some b
  else None.

(** ** Exceptions, arrays and the trace of library calls *)

Inductive exn : Type :=
| ValueError (msg : string)
| IndexError (msg : string)
| ZeroDivisionError (msg : string)
| NonFinite.

Definition clip_msg : string := "Invalid parameters for clip option.".
Definition zero_size_msg : string := "zero-size array to reduction operation".
Definition index_msg : string := "index out of bounds".
Definition division_msg : string := "float division by zero".

(** A 2-D array, as the list of its rows. *)
Definition matrix : Type := list (list Q).

(** What [mlab.specgram] returns: [(spectrogram, freq, time)]. *)
Definition spectrum : Type := (matrix * list Q * list Q)%type.

(** The calls into matplotlib that carry numbers.  The cosmetic calls
    ([set_yscale], [semilogy], [axis('tight')], [grid], labels, [draw],
    [savefig], [show]) are not recorded. *)
Inductive event : Type :=
| specgram_call (data : list Q) (Fs : Q) (NFFT : Z) (pad_to : option Z) (noverlap : Z)
| figure_call
| pcolormesh_call (time freq : list Q) (S : matrix) (vmin vmax : Q)
| pcolor_call (time freq : list Q) (S : matrix) (vmin vmax : Q)
| imshow_call (S : matrix) (extent : Q * Q * Q * Q)
| set_xlim_call (lo hi : Q).

(** What [spectrogram] returns: the axes it was given, or the new figure. *)
Inductive handle : Type := ax | fig.

(** Pure fallible code: [exn + A], with [inl] the raised exception. *)
Definition ebind {A B : Type} (m : exn + A) (k : A -> exn + B) : exn + B :=
  match m with
  | inl e => inl e
  | inr a => k a
  end.

(** Code that also calls the libraries: the trace so far and the outcome. *)
Definition M (A : Type) : Type := (list event * (exn + A))%type.

Definition ret {A : Type} (a : A) : M A := ([], inr a).
Definition lift {A : Type} (r : exn + A) : M A := ([], r).
Definition emit (ev : event) : M unit := ([ev], inr tt).

Definition bind {A B : Type} (m : M A) (k : A -> M B) : M B :=
  match m with
  | (t, inl e) => (t, inl e)
  | (t, inr a) => (t ++ fst (k a), snd (k a))
  end.

Declare Scope py_scope.
Delimit Scope py_scope with py.
Notation "x <- m ;; k" := (bind m (fun x => k))
  (at level 61, m at next level, right associativity) : py_scope.
Notation "x <~ m ;; k" := (ebind m (fun x => k))
  (at level 61, m at next level, right associativity) : py_scope.

(** [x < y] on floats. *)
Definition Qltb (x y : Q) : bool := negb (Qle_bool y x).

(** [v[i]] on a 1-D array, negative indices counting from the end. *)
Definition getitem (v : list Q) (i : Z) : exn + Q :=
  let n := Z.of_nat (length v) in
  let j := if (i <? 0)%Z then (i + n)%Z else i in
  if ((0 <=? j)%Z && (j <? n)%Z)%bool then
    match nth_error v (Z.to_nat j) with
    | Some q => inr q
    | None => inl (IndexError index_msg)
    end
  else inl (IndexError index_msg).

(** [a.max()] and [a.min()] over all entries; numpy raises on an empty array. *)
Definition array_max (a : matrix) : exn + Q :=
  match concat a with
  | [] => inl (ValueError zero_size_msg)
  | q :: l => inr (fold_left Qmax l q)
  end.

Definition array_min (a : matrix) : exn + Q :=
  match concat a with
  | [] => inl (ValueError zero_size_msg)
  | q :: l => inr (fold_left Qmin l q)
  end.

(** [data.mean()]: the mean of an empty array is [nan]. *)
Definition mean (data : list Q) : exn + Q :=
  match data with
  | [] => inl NonFinite
  | _ => inr (fold_right Qplus 0 data / inject_Z (Z.of_nat (length data)))
  end.

(** [x / y] on floats. *)
Definition truediv (x y : Q) : exn + Q :=
  if Qeq_bool y 0 then inl (ZeroDivisionError division_msg) else inr (x / y).

(** [a >= b] on Python lists (lexicographic, a proper prefix is smaller). *)
Fixpoint list_lt (a b : list Z) : bool :=
  match a, b with
  | _, [] => false
  | [], _ :: _ => true
  | x :: a', y :: b' => if (x <? y)%Z then true else if (y <? x)%Z then false else list_lt a' b'
  end.

Definition list_ge (a b : list Z) : bool := negb (list_lt a b).

(** [not wlen]: [None] and zero are falsy. *)
Definition falsy (wlen : option Q) : bool :=
  match wlen with
  | None => true
  | Some w => Qeq_bool w 0
  end.

(** A strictly increasing vector. *)
Definition ascending (v : list Q) : Prop := Sorted Qlt v.

(** ** matplotlib.mlab.specgram

    The estimator is a library routine, not part of this repository.
    [spectrogram] below takes it as a parameter.  This module is a model of
    its output shape for real input with the default one-sided spectrum:
    the data is zero-padded to [NFFT] when shorter, [pad_to] defaults to
    [NFFT], there are [pad_to // 2 + 1] frequency rows, one column per
    start index in [arange(0, len(x) - NFFT + 1, NFFT - noverlap)], and
    [t = (ind + NFFT/2) / Fs], [freqs = Fs / pad_to * arange(numFreqs)].
    The power values themselves are left to [power]. *)
Module Mlab.

(** [np.arange(0, stop, step)] for a non-zero step. *)
Definition arange (stop step : Z) : list Z :=
  let n := if (0 <? step)%Z
           then (if (0 <? stop)%Z then ((stop + step - 1) / step)%Z else 0%Z)
           else (if (stop <? 0)%Z then ((- stop - step - 1) / (- step))%Z else 0%Z) in
  map (fun i => (Z.of_nat i * step)%Z) (seq 0 (Z.to_nat n)).

(** [x[start : start + len]]. *)
Definition segment (x : list Q) (start len : Z) : list Q :=
  firstn (Z.to_nat len) (skipn (Z.to_nat start) x).

(** [mlab.specgram(x, Fs=Fs, NFFT=NFFT, pad_to=pad_to, noverlap=noverlap)];
    [power seg pad_to k] is the power of segment [seg] at frequency row [k]. *)
Definition specgram (power : list Q -> Z -> nat -> Q)
    (x : list Q) (Fs : Q) (NFFT : Z) (pad_to : option Z) (noverlap : Z)
    : exn + spectrum :=
  let x := if (Z.of_nat (length x) <? NFFT)%Z
           then x ++ repeat 0 (Z.to_nat (NFFT - Z.of_nat (length x)))
           else x in
  let pad_to := match pad_to with None => NFFT | Some p => p end in
  let numFreqs := (pad_to / 2 + 1)%Z in
  let step := (NFFT - noverlap)%Z in
  if (step =? 0)%Z then inl (ZeroDivisionError "arange step") else
  let ind := arange (Z.of_nat (length x) - NFFT + 1) step in
  if (Qeq_bool Fs 0 || (pad_to =? 0)%Z)%bool then inl (ZeroDivisionError division_msg) else
  let rows := seq 0 (Z.to_nat numFreqs) in
  let Pxy := map (fun k => map (fun i => power (segment x i NFFT) pad_to k) ind) rows in
  let t := map (fun i => 1 / Fs * (inject_Z i + inject_Z NFFT / 2)) ind in
  let freqs := map (fun k => Fs / inject_Z pad_to * inject_Z (Z.of_nat k)) rows in
  inr (Pxy, freqs, t).

(** Stand-ins for the numeric routines, used to run the pipeline on
    concrete inputs; no theorem depends on their values. *)
Definition unit_power (seg : list Q) (pad_to : Z) (k : nat) : Q := 1.
Definition stand_in (v : Q) : Q := v.

End Mlab.

(** ** The pipeline *)

Local Open Scope py_scope.

Section Spectrogram.

(** [obspy.core.util.MATPLOTLIB_VERSION], e.g. [[1; 0; 0]]. *)
Variable MATPLOTLIB_VERSION : list Z.
(** [mlab.specgram(data, Fs, NFFT, pad_to, noverlap)]. *)
Variable mlab_specgram : list Q -> Q -> Z -> option Z -> Z -> exn + spectrum.
(** [np.log10] and [np.sqrt], element-wise. *)
Variable np_log10 : Q -> Q.
Variable np_sqrt : Q -> Q.

(** The segmentation computed in lines 113-129. *)
Record plan : Type := { wlen_used : Q; nfft : Z; pad : option Z; nlap : Z }.

(** Lines 122-124: the FFT length and its fallback. *)
Definition select_nfft (npts : Z) (wlen samp_rate : Q) : exn + Z :=
  match nearestPow2 (wlen * samp_rate) with
  | None => inl NonFinite
  | Some p =>
      let nfft := int p in
      if (nfft >? npts)%Z then
        match nearestPow2 (inject_Z npts / 8) with
        | None => inl NonFinite
        | Some p' => inr (int p')
        end
      else inr nfft
  end.

(** Lines 113-129. *)
Definition window_plan (npts : Z) (samp_rate per_lap : Q) (wlen mult : option Q)
    : exn + plan :=
  let wlen := if falsy wlen then samp_rate / 100
              else match wlen with Some w => w | None => samp_rate / 100 end in
  nfft <~ select_nfft npts wlen samp_rate ;;
  mult <~ match mult with
          | None => inr None
          | Some m =>
              match nearestPow2 m with
              | None => inl NonFinite
              | Some p => inr (Some (int p * nfft)%Z)
              end
          end ;;
  let nlap := int (inject_Z nfft * per_lap) in
  inr {| wlen_used := wlen; nfft := nfft; pad := mult; nlap := nlap |}.

(** Lines 113-143: plan, detrend and the call of the estimator. *)
Definition spectral_stage (data : list Q) (samp_rate per_lap : Q)
    (wlen mult : option Q) : M (Q * spectrum) :=
  let npts := Z.of_nat (length data) in
  p <- lift (window_plan npts samp_rate per_lap wlen mult) ;;
  m <- lift (mean data) ;;
  let data := map (fun v => v - m) data in
  end_ <- lift (truediv (inject_Z npts) samp_rate) ;;
  let pad_to := if list_ge MATPLOTLIB_VERSION [0; 99; 0]%Z then pad p else None in
  _ <- emit (specgram_call data samp_rate (nfft p) pad_to (nlap p)) ;;
  raw <- lift (mlab_specgram data samp_rate (nfft p) pad_to (nlap p)) ;;
  ret (end_, raw).

(** Lines 144-149: drop the zero-frequency row, then scale. *)
Definition amplitude_transform (dbscale : bool) (spectrogram : matrix) (freq : list Q)
    : matrix * list Q :=
  let spectrogram :=
    if dbscale then map (map (fun v => 10 * np_log10 v)) (tl spectrogram)
    else map (map np_sqrt) (tl spectrogram) in
  (spectrogram, tl freq).

(** Line 152: the test that raises. *)
Definition clip_invalid (clip : Q * Q) : bool :=
  let (vmin, vmax) := clip in
  (Qltb vmin 0 || Qltb 1 vmax || Qle_bool vmax vmin)%bool.

(** Lines 151-158: the bounds handed to [Normalize]. *)
Definition color_normalizer (spectrogram : matrix) (clip : Q * Q) : exn + (Q * Q) :=
  let (vmin, vmax) := clip in
  if clip_invalid clip then inl (ValueError clip_msg) else
  smax <~ array_max spectrogram ;;
  smin <~ array_min spectrogram ;;
  let range := smax - smin in
  inr (smin + vmin * range, smin + vmax * range).

(** Lines 167-168: half of the first bin width. *)
Definition halfbin (v : list Q) : exn + Q :=
  v1 <~ getitem v 1 ;;
  v0 <~ getitem v 0 ;;
  inr ((v1 - v0) / 2).

(** Lines 172-176: one more edge at the right end, then centre the bins. *)
Definition bin_edges (v : list Q) (halfbin_v : Q) : exn + list Q :=
  last_v <~ getitem v (-1) ;;
  let v := v ++ [last_v + 2 * halfbin_v] in
  inr (map (fun e => e - halfbin_v) v).

(** Lines 197-198: the extent of the image in linear mode. *)
Definition extent (time freq : list Q) (halfbin_time halfbin_freq : Q)
    : exn + (Q * Q * Q * Q) :=
  t0 <~ getitem time 0 ;;
  t1 <~ getitem time (-1) ;;
  f0 <~ getitem freq 0 ;;
  f1 <~ getitem freq (-1) ;;
  inr (t0 - halfbin_time, t1 + halfbin_time, f0 - halfbin_freq, f1 + halfbin_freq).

(** Lines 166-200: half-bin widths, then the mesh or the image. *)
Definition axis_binner (log : bool) (time freq : list Q) (spectrogram : matrix)
    (norm : Q * Q) : M unit :=
  halfbin_time <- lift (halfbin time) ;;
  halfbin_freq <- lift (halfbin freq) ;;
  if log then
    freq <- lift (bin_edges freq halfbin_freq) ;;
    time <- lift (bin_edges time halfbin_time) ;;
    if list_ge MATPLOTLIB_VERSION [0; 98; 3]%Z
    then emit (pcolormesh_call time freq spectrogram (fst norm) (snd norm))
    else emit (pcolor_call time freq spectrogram (fst norm) (snd norm))
  else
    let spectrogram := rev spectrogram in
    ext <- lift (extent time freq halfbin_time halfbin_freq) ;;
    emit (imshow_call spectrogram ext).

(** Lines 144-230, from the estimator's output on. *)
Definition render_stage (end_ : Q) (raw : spectrum) (log axes dbscale : bool)
    (clip : Q * Q) : M handle :=
  let '(spectrogram, freq, time) := raw in
  let (spectrogram, freq) := amplitude_transform dbscale spectrogram freq in
  norm <- lift (color_normalizer spectrogram clip) ;;
  _ <- (if axes then ret tt else emit figure_call) ;;
  _ <- axis_binner log time freq spectrogram norm ;;
  _ <- emit (set_xlim_call 0 end_) ;;
  ret (if axes then ax else fig).

(** [spectrogram(data, samp_rate, per_lap, wlen, log, axes, dbscale, mult,
    clip)]; the options that only reach the renderer ([outfile], [format],
    [cmap], [zorder], [title], [show], [sphinx]) are left out. *)
Definition spectrogram (data : list Q) (samp_rate per_lap : Q) (wlen : option Q)
    (log axes dbscale : bool) (mult : option Q) (clip : Q * Q) : M handle :=
  r <- spectral_stage data samp_rate per_lap wlen mult ;;
  render_stage (fst r) (snd r) log axes dbscale clip.

End Spectrogram.

(** The shape of a one-sided spectrum: [pad_to // 2 + 1] frequency rows,
    with [pad_to] defaulting to [NFFT]. *)
Definition one_sided
    (mlab_specgram : list Q -> Q -> Z -> option Z -> Z -> exn + spectrum) : Prop :=
  forall data Fs NFFT pad_to noverlap s f t,
    (0 <= match pad_to with None => NFFT | Some p => p end)%Z ->
    mlab_specgram data Fs NFFT pad_to noverlap = inr (s, f, t) ->
    Z.of_nat (length s) = (match pad_to with None => NFFT | Some p => p end / 2 + 1)%Z.

(** The number of frequency rows the spectral stage hands on, before and
    after the amplitude transform. *)
Definition raw_rows (m : M (Q * spectrum)) : option nat :=
  match snd m with
  | inr (_, (s, _, _)) => Some (length s)
  | inl _ => None
  end.

Definition scaled_rows (np_log10 np_sqrt : Q -> Q) (dbscale : bool)
    (m : M (Q * spectrum)) : option nat :=
  match snd m with
  | inr (_, (s, f, _)) => Some (length (fst (amplitude_transform np_log10 np_sqrt dbscale s f)))
  | inl _ => None
  end.

(** One frequency per row and one time per column. *)
Definition well_shaped (raw : spectrum) : Prop :=
  let '(s, f, t) := raw in
  length s = length f /\ Forall (fun row => length row = length t) s.

(** ** The end of [spectrogram] (lines 208-230)

    What follows [ax.set_xlim] once the mesh or image is drawn: labels and
    title, the draw under silenced numpy warnings, and saving or showing
    the figure. *)

(** One numpy error setting, and the four that [np.geterr()] returns. *)
Inductive errmode : Type := Ignore | Warn | Raise | Call | Print | Log.

Record errstate : Type :=
  { divide : errmode; over : errmode; under : errmode; invalid : errmode }.

(** The settings after [np.seterr(all='ignore')]. *)
Definition all_ignore : errstate :=
  {| divide := Ignore; over := Ignore; under := Ignore; invalid := Ignore |}.

(** The calls of lines 211-229; [draw_call] records the numpy error
    settings in force while [plt.draw()] runs. *)
Inductive finish_event : Type :=
| set_xlabel_call (label : string)
| set_ylabel_call (label : string)
| set_title_call (title : string)
| draw_call (err : errstate)
| savefig_call (outfile : string) (format : option string)
| show_call.

(** The value of a string option that is truthy: [None] and the empty
    string are falsy. *)
Definition truthy_string (s : option string) : option string :=
  match s with
  | None => None
  | Some s' => if String.eqb s' "" then None else Some s'
  end.

(** Lines 208-230: the calls made, the numpy error settings left behind
    and the value returned. *)
Definition finish (axes : bool) (title outfile format : option string)
    (show sphinx : bool) (err : errstate) : list finish_event * errstate * handle :=
  if axes then ([], err, ax) else
  let labels := [set_xlabel_call "Time [s]"; set_ylabel_call "Frequency [Hz]"] in
  let titled := match truthy_string title with
                | Some t => [set_title_call t]
                | None => []
                end in
  let '(drawn, err) :=
    if sphinx then ([], err)
    else let temp := err in
         let err := all_ignore in
         ([draw_call err], temp) in
  let out := match truthy_string outfile with
             | Some o => [savefig_call o (truthy_string format)]
             | None => if show then [show_call] else []
             end in
  (labels ++ titled ++ drawn ++ out, err, fig).

(** * Properties *)

(** *** The exact logarithms are the mathematical ones *)

Lemma pow2_pos (k : Z) : 0 < pow2 k.
Proof. unfold pow2. apply Qpower_0_lt. reflexivity. Qed.

Lemma pow2_le (j k : Z) : (j <= k)%Z -> pow2 j <= pow2 k.
Proof. intro H. unfold pow2. apply Qpower_le_compat_l; [exact H | discriminate]. Qed.

Lemma pow2_lt (j k : Z) : (j < k)%Z -> pow2 j < pow2 k.
Proof. intro H. unfold pow2. apply Qpower_lt_compat_l; [exact H | reflexivity]. Qed.

Lemma pow2_lt_inv (j k : Z) : pow2 j < pow2 k -> (j < k)%Z.
Proof. intro H. apply (Qpower_lt_compat_l_inv 2); [exact H | reflexivity]. Qed.

Lemma pow2_inject (k : Z) : (0 <= k)%Z -> pow2 k == inject_Z (2 ^ k).
Proof. intro H. unfold pow2. rewrite Zpower_Qpower by exact H. reflexivity. Qed.

Lemma pow2_opp (k : Z) : pow2 (- k) == / pow2 k.
Proof. unfold pow2. apply Qpower_opp. Qed.

Lemma inject_Z_le (a b : Z) : (a <= b)%Z -> inject_Z a <= inject_Z b.
Proof. intro H. rewrite <- Zle_Qle. exact H. Qed.

Lemma inject_Z_lt (a b : Z) : (a < b)%Z -> inject_Z a < inject_Z b.
Proof. intro H. rewrite <- Zlt_Qlt. exact H. Qed.

Lemma Qfloor_ge_1 (x : Q) : 1 <= x -> (1 <= Qfloor x)%Z.
Proof.
  intro H. change 1%Z with (Qfloor 1). apply Qfloor_resp_le. exact H.
Qed.

Lemma Qinv_gt_1 (x : Q) : 0 < x -> x < 1 -> 1 < / x.
Proof.
  intros H0 H1.
  apply Qmult_lt_l with (z := x); [exact H0|].
  rewrite Qmult_inv_r; [lra | lra].
Qed.

Lemma Qinv_le_swap (x y : Q) : 0 < x -> x <= y -> / y <= / x.
Proof.
  intros Hx Hxy.
  assert (Hy : 0 < y) by lra.
  apply Qmult_le_l with (z := x * y); [nra|].
  setoid_replace (x * y * / y) with x by (field; lra).
  setoid_replace (x * y * / x) with y by (field; lra).
  exact Hxy.
Qed.

Lemma Qinv_lt_swap (x y : Q) : 0 < x -> x < y -> / y < / x.
Proof.
  intros Hx Hxy.
  assert (Hy : 0 < y) by lra.
  apply Qmult_lt_l with (z := x * y); [nra|].
  setoid_replace (x * y * / y) with x by (field; lra).
  setoid_replace (x * y * / x) with y by (field; lra).
  exact Hxy.
Qed.

Lemma Qinv_le_l (x c : Q) : 0 < x -> / x <= c -> / c <= x.
Proof.
  intros Hx H.
  assert (Hi : 0 < / x) by (apply Qinv_lt_0_compat; exact Hx).
  rewrite <- (Qinv_involutive x). apply Qinv_le_swap; assumption.
Qed.

Lemma Qinv_lt_l (x c : Q) : 0 < x -> / x < c -> / c < x.
Proof.
  intros Hx H.
  assert (Hi : 0 < / x) by (apply Qinv_lt_0_compat; exact Hx).
  rewrite <- (Qinv_involutive x). apply Qinv_lt_swap; assumption.
Qed.

Lemma Qinv_le_r (x c : Q) : 0 < x -> 0 < c -> c <= / x -> x <= / c.
Proof.
  intros Hx Hc H.
  rewrite <- (Qinv_involutive x). apply Qinv_le_swap; assumption.
Qed.

Lemma Qinv_lt_r (x c : Q) : 0 < x -> 0 < c -> c < / x -> x < / c.
Proof.
  intros Hx Hc H.
  rewrite <- (Qinv_involutive x). apply Qinv_lt_swap; assumption.
Qed.

Lemma inject_pow2_pos (k : Z) : (0 <= k)%Z -> 0 < inject_Z (2 ^ k).
Proof.
  intro H. change 0 with (inject_Z 0). apply inject_Z_lt. apply Z.pow_pos_nonneg; lia.
Qed.

Lemma Qle_bool_false_lt (x : Q) : Qle_bool 1 x = false -> x < 1.
Proof.
  intro E. destruct (Qlt_le_dec x 1) as [H|H]; [exact H|].
  apply Qle_bool_iff in H. congruence.
Qed.

Lemma floor_log2_spec (x : Q) :
  0 < x -> pow2 (floor_log2 x) <= x /\ x < pow2 (floor_log2 x + 1).
Proof.
  intro Hx. unfold floor_log2.
  destruct (Qle_bool 1 x) eqn:E.
  - apply Qle_bool_iff in E.
    pose proof (Qfloor_ge_1 x E) as Hm.
    destruct (Z.log2_spec (Qfloor x)) as [Hlo Hhi]; [lia|].
    pose proof (Z.log2_nonneg (Qfloor x)) as Hk.
    rewrite !pow2_inject by lia. split.
    + apply Qle_trans with (inject_Z (Qfloor x)); [apply inject_Z_le; exact Hlo | apply Qfloor_le].
    + apply Qlt_le_trans with (inject_Z (Qfloor x + 1)); [apply Qlt_floor|].
      apply inject_Z_le. change (Z.succ (Z.log2 (Qfloor x))) with (Z.log2 (Qfloor x) + 1)%Z in Hhi. lia.
  - pose proof (Qle_bool_false_lt x E) as Hx1.
    pose proof (Qinv_gt_1 x Hx Hx1) as Hy.
    pose proof (Qle_ceiling (/ x)) as Hc.
    pose proof (Qceiling_lt (/ x)) as Hc'.
    assert (Hc1 : (1 < Qceiling (/ x))%Z).
    { rewrite Zlt_Qlt. apply Qlt_le_trans with (/ x); assumption. }
    destruct (Z.log2_up_spec (Qceiling (/ x)) Hc1) as [Hlo Hhi].
    pose proof (Z.log2_up_pos _ Hc1) as Hj.
    set (j := Z.log2_up (Qceiling (/ x))) in *.
    split.
    + rewrite pow2_opp, pow2_inject by lia.
      apply Qinv_le_l; [exact Hx|].
      apply Qle_trans with (inject_Z (Qceiling (/ x))); [exact Hc | apply inject_Z_le; exact Hhi].
    + replace (- j + 1)%Z with (- (j - 1))%Z by lia.
      rewrite pow2_opp, pow2_inject by lia.
      apply Qinv_lt_r; [exact Hx | apply inject_pow2_pos; lia |].
      apply Qle_lt_trans with (inject_Z (Qceiling (/ x) - 1)); [|exact Hc'].
      apply inject_Z_le. replace (j - 1)%Z with (Z.pred j) by lia. lia.
Qed.

Lemma ceil_log2_spec (x : Q) :
  0 < x -> pow2 (ceil_log2 x - 1) < x /\ x <= pow2 (ceil_log2 x).
Proof.
  intro Hx. unfold ceil_log2.
  destruct (Qle_bool 1 x) eqn:E.
  - apply Qle_bool_iff in E.
    pose proof (Qle_ceiling x) as Hc.
    pose proof (Qceiling_lt x) as Hc'.
    assert (Hc1 : (1 <= Qceiling x)%Z).
    { rewrite Zle_Qle. apply Qle_trans with x; assumption. }
    destruct (Z.eq_dec (Qceiling x) 1) as [H1|H1].
    + rewrite H1 in *. change (Z.log2_up 1) with 0%Z.
      split; [|exact Hc].
      apply Qlt_le_trans with 1; [reflexivity | exact E].
    + assert (Hgt : (1 < Qceiling x)%Z) by lia.
      destruct (Z.log2_up_spec (Qceiling x) Hgt) as [Hlo Hhi].
      pose proof (Z.log2_up_pos _ Hgt) as Hj.
      set (j := Z.log2_up (Qceiling x)) in *.
      rewrite !pow2_inject by lia. split.
      * apply Qle_lt_trans with (inject_Z (Qceiling x - 1)); [|exact Hc'].
        apply inject_Z_le. replace (j - 1)%Z with (Z.pred j) by lia. lia.
      * apply Qle_trans with (inject_Z (Qceiling x)); [exact Hc | apply inject_Z_le; exact Hhi].
  - pose proof (Qle_bool_false_lt x E) as Hx1.
    pose proof (Qinv_gt_1 x Hx Hx1) as Hy.
    assert (Hm : (1 <= Qfloor (/ x))%Z) by (apply Qfloor_ge_1; lra).
    destruct (Z.log2_spec (Qfloor (/ x))) as [Hlo Hhi]; [lia|].
    pose proof (Z.log2_nonneg (Qfloor (/ x))) as Hk.
    set (k := Z.log2 (Qfloor (/ x))) in *.
    split.
    + replace (- k - 1)%Z with (- (k + 1))%Z by lia.
      rewrite pow2_opp, pow2_inject by lia.
      apply Qinv_lt_l; [exact Hx|].
      apply Qlt_le_trans with (inject_Z (Qfloor (/ x) + 1)); [apply Qlt_floor|].
      apply inject_Z_le. change (Z.succ k) with (k + 1)%Z in Hhi. lia.
    + rewrite pow2_opp, pow2_inject by lia.
      apply Qinv_le_r; [exact Hx | apply inject_pow2_pos; lia |].
      apply Qle_trans with (inject_Z (Qfloor (/ x))); [apply inject_Z_le; exact Hlo | apply Qfloor_le].
Qed.

(** *** nearestPow2 *)

Lemma dist_below (x : Q) (j : Z) : pow2 j <= x -> Qabs (pow2 j - x) == x - pow2 j.
Proof. intro H. rewrite Qabs_neg by lra. ring. Qed.

Lemma dist_above (x : Q) (j : Z) : x <= pow2 j -> Qabs (pow2 j - x) == pow2 j - x.
Proof. intro H. rewrite Qabs_pos by lra. reflexivity. Qed.

Lemma ceil_le_floor_succ (x : Q) : 0 < x -> (ceil_log2 x <= floor_log2 x + 1)%Z.
Proof.
  intro Hx.
  destruct (floor_log2_spec x Hx) as [_ Hf].
  destruct (ceil_log2_spec x Hx) as [Hc _].
  assert (H : (ceil_log2 x - 1 < floor_log2 x + 1)%Z) by (apply pow2_lt_inv; lra).
  lia.
Qed.

Lemma nearestPow2_cases (x : Q) :
  0 < x ->
  (nearestPow2 x = Some (pow2 (ceil_log2 x)) /\
   Qabs (pow2 (ceil_log2 x) - x) < Qabs (pow2 (floor_log2 x) - x)) \/
  (nearestPow2 x = Some (pow2 (floor_log2 x)) /\
   Qabs (pow2 (floor_log2 x) - x) <= Qabs (pow2 (ceil_log2 x) - x)).
Proof.
  intro Hx. unfold nearestPow2.
  destruct (Qlt_le_dec 0 x) as [_|H]; [|lra].
  cbv zeta.
  destruct (Qlt_le_dec (Qabs (pow2 (ceil_log2 x) - x)) (Qabs (pow2 (floor_log2 x) - x)));
    [left | right]; split; auto.
Qed.

Lemma nearestPow2_defined (x : Q) : 0 < x -> exists p, nearestPow2 x = Some p.
Proof.
  intro Hx. destruct (nearestPow2_cases x Hx) as [[E _]|[E _]]; eauto.
Qed.

(** Every power of two is at least as far from [x] as the nearer of the
    two neighbours [2^floor] and [2^ceil]. *)
Lemma neighbours_bound (x : Q) (j : Z) :
  0 < x ->
  (pow2 j <= pow2 (floor_log2 x) /\
   Qabs (pow2 (floor_log2 x) - x) <= Qabs (pow2 j - x) /\
   (pow2 j < pow2 (floor_log2 x) -> Qabs (pow2 (floor_log2 x) - x) < Qabs (pow2 j - x))) \/
  (pow2 (ceil_log2 x) <= pow2 j /\
   Qabs (pow2 (ceil_log2 x) - x) <= Qabs (pow2 j - x)).
Proof.
  intro Hx.
  destruct (floor_log2_spec x Hx) as [Hf _].
  destruct (ceil_log2_spec x Hx) as [_ Hc].
  pose proof (ceil_le_floor_succ x Hx) as Hcf.
  destruct (Z_le_gt_dec j (floor_log2 x)) as [Hj|Hj].
  - left. pose proof (pow2_le _ _ Hj) as Hle.
    rewrite (dist_below x (floor_log2 x)) by exact Hf.
    rewrite (dist_below x j) by lra.
    repeat split; [exact Hle | lra | intro; lra].
  - right. assert (Hj' : (ceil_log2 x <= j)%Z) by lia.
    pose proof (pow2_le _ _ Hj') as Hle.
    rewrite (dist_above x (ceil_log2 x)) by exact Hc.
    rewrite (dist_above x j) by lra.
    split; [exact Hle | lra].
Qed.

Lemma floor_pow_le_ceil_pow (x : Q) : 0 < x -> pow2 (floor_log2 x) <= pow2 (ceil_log2 x).
Proof.
  intro Hx.
  destruct (floor_log2_spec x Hx) as [Hf _].
  destruct (ceil_log2_spec x Hx) as [_ Hc]. lra.
Qed.

Lemma nearestPow2_minimal (x p : Q) (j : Z) :
  0 < x -> nearestPow2 x = Some p -> Qabs (p - x) <= Qabs (pow2 j - x).
Proof.
  intros Hx E.
  destruct (nearestPow2_cases x Hx) as [[E' Hlt]|[E' Hle]];
    rewrite E' in E; injection E as <-;
    destruct (neighbours_bound x j Hx) as [(_ & H & _)|(_ & H)]; lra.
Qed.

Lemma nearestPow2_tie_low (x p : Q) (j : Z) :
  0 < x -> nearestPow2 x = Some p -> Qabs (pow2 j - x) == Qabs (p - x) -> p <= pow2 j.
Proof.
  intros Hx E Heq.
  pose proof (floor_pow_le_ceil_pow x Hx) as Hfc.
  destruct (nearestPow2_cases x Hx) as [[E' Hlt]|[E' Hle]];
    rewrite E' in E; injection E as <-.
  - destruct (neighbours_bound x j Hx) as [(_ & H & _)|(H & _)]; [lra | exact H].
  - destruct (neighbours_bound x j Hx) as [(Hj & _ & H)|(H & _)]; [|lra].
    destruct (Qlt_le_dec (pow2 j) (pow2 (floor_log2 x))) as [Hl|Hl]; [|exact Hl].
    specialize (H Hl). lra.
Qed.

Lemma nearestPow2_exact (x p : Q) (j : Z) :
  x == pow2 j -> nearestPow2 x = Some p -> p == x.
Proof.
  intros Hxj E.
  assert (Hx : 0 < x) by (rewrite Hxj; apply pow2_pos).
  pose proof (nearestPow2_minimal x p j Hx E) as H.
  assert (H0 : Qabs (pow2 j - x) == 0).
  { setoid_replace (pow2 j - x) with 0 by lra. reflexivity. }
  rewrite H0 in H.
  pose proof (Qabs_nonneg (p - x)) as Hn.
  assert (Hz : Qabs (p - x) == 0) by lra.
  revert Hz. apply Qabs_case; intros; lra.
Qed.

Lemma nearestPow2_is_pow2 (x p : Q) :
  nearestPow2 x = Some p -> p = pow2 (ceil_log2 x) \/ p = pow2 (floor_log2 x).
Proof.
  unfold nearestPow2. destruct (Qlt_le_dec 0 x); [|discriminate].
  cbv zeta. destruct (Qlt_le_dec _ _); intro E; injection E as <-; auto.
Qed.

(** C1. For every positive [x], [nearestPow2] returns a power of two [p]
    such that no power of two is strictly closer to [x]; among equally near
    powers it returns the smaller one; on an exact power of two it returns
    [x]; and [nearestPow2(3) = 2], [nearestPow2(15) = 16],
    [nearestPow2(8) = 8]. *)
Theorem nearestPow2_nearest (x : Q) :
  0 < x ->
  exists (p : Q) (k : Z),
    nearestPow2 x = Some p /\ p = pow2 k /\
    (forall j : Z, Qabs (p - x) <= Qabs (pow2 j - x)) /\
    (forall j : Z, Qabs (pow2 j - x) == Qabs (p - x) -> p <= pow2 j) /\
    (forall j : Z, x == pow2 j -> p == x) /\
    nearestPow2 3 = Some 2 /\ nearestPow2 15 = Some 16 /\ nearestPow2 8 = Some 8.
Proof.
  intro Hx.
  destruct (nearestPow2_defined x Hx) as [p E].
  assert (Hk : exists k, p = pow2 k).
  { destruct (nearestPow2_is_pow2 x p E) as [->| ->]; eauto. }
  destruct Hk as [k Hk].
  exists p, k. split; [exact E|]. split; [exact Hk|].
  split; [intro j; apply nearestPow2_minimal; assumption|].
  split; [intro j; apply nearestPow2_tie_low; assumption|].
  split; [intros j Hj; apply (nearestPow2_exact x p j); assumption|].
  repeat split; reflexivity.
Qed.

Lemma nearestPow2_nearest_witness :
  exists (p : Q) (k : Z),
    nearestPow2 3 = Some p /\ p = pow2 k /\
    (forall j : Z, Qabs (p - 3) <= Qabs (pow2 j - 3)) /\
    (forall j : Z, Qabs (pow2 j - 3) == Qabs (p - 3) -> p <= pow2 j) /\
    (forall j : Z, 3 == pow2 j -> p == 3) /\
    nearestPow2 3 = Some 2 /\ nearestPow2 15 = Some 16 /\ nearestPow2 8 = Some 8.
Proof. apply (nearestPow2_nearest 3). reflexivity. Defined.

(** *** The segmentation plan *)

Lemma int_floor (p : Q) : 0 <= p -> int p = Qfloor p.
Proof.
  destruct p as [n d]. unfold Qle, int, Qfloor. cbn. intro H.
  apply Z.quot_div_nonneg; lia.
Qed.

Lemma int_le (p : Q) : 0 <= p -> inject_Z (int p) <= p.
Proof. intro H. rewrite int_floor by exact H. apply Qfloor_le. Qed.

Lemma int_bounded (p : Q) (n : Z) : 0 <= p -> p <= inject_Z n -> (int p <= n)%Z.
Proof.
  intros H0 Hn. rewrite Zle_Qle. apply Qle_trans with p; [apply int_le; exact H0 | exact Hn].
Qed.

Lemma pow2_double (k : Z) : pow2 k == 2 * pow2 (k - 1).
Proof.
  unfold pow2. replace k with (1 + (k - 1))%Z at 1 by lia.
  rewrite Qpower_plus by discriminate. reflexivity.
Qed.

Lemma nearestPow2_pos (x p : Q) : nearestPow2 x = Some p -> 0 < p.
Proof.
  intro E. destruct (nearestPow2_is_pow2 x p E) as [->| ->]; apply pow2_pos.
Qed.

Lemma nearestPow2_le_double (y p : Q) : 0 < y -> nearestPow2 y = Some p -> p <= 2 * y.
Proof.
  intros Hy E.
  destruct (floor_log2_spec y Hy) as [Hf _].
  destruct (ceil_log2_spec y Hy) as [Hc _].
  destruct (nearestPow2_is_pow2 y p E) as [->| ->].
  - rewrite pow2_double. lra.
  - lra.
Qed.

Lemma eighth_pos (npts : Z) : (1 <= npts)%Z -> 0 < inject_Z npts / 8.
Proof.
  intro H. apply inject_Z_le in H. change (inject_Z 1) with 1 in H.
  apply Qlt_shift_div_l; lra.
Qed.

Lemma eighth_double (npts : Z) : (1 <= npts)%Z -> 2 * (inject_Z npts / 8) <= inject_Z npts.
Proof.
  intro H. apply inject_Z_le in H. change (inject_Z 1) with 1 in H.
  setoid_replace (2 * (inject_Z npts / 8)) with (inject_Z npts * (1 # 4)) by (field).
  lra.
Qed.

Lemma fallback_bounded (npts : Z) :
  (1 <= npts)%Z ->
  exists p8, nearestPow2 (inject_Z npts / 8) = Some p8 /\
             p8 <= inject_Z npts /\ (int p8 <= npts)%Z.
Proof.
  intro H.
  destruct (nearestPow2_defined _ (eighth_pos npts H)) as [p8 E].
  pose proof (nearestPow2_le_double _ _ (eighth_pos npts H) E) as Hd.
  pose proof (eighth_double npts H) as He.
  pose proof (nearestPow2_pos _ _ E) as Hp.
  exists p8. split; [exact E|]. split; [lra|].
  apply int_bounded; lra.
Qed.

Lemma select_nfft_bounded (npts : Z) (wlen samp_rate : Q) (n : Z) :
  (1 <= npts)%Z -> select_nfft npts wlen samp_rate = inr n -> (n <= npts)%Z.
Proof.
  intros H. destruct (fallback_bounded npts H) as (p8 & E8 & _ & Hi).
  unfold select_nfft. rewrite E8.
  destruct (nearestPow2 (wlen * samp_rate)) as [p0|]; [|discriminate].
  destruct (int p0 >? npts)%Z eqn:G; intro E; injection E as <-; [exact Hi|].
  rewrite Z.gtb_ltb in G. apply Z.ltb_ge in G. exact G.
Qed.

Lemma window_plan_nfft (npts : Z) (samp_rate per_lap : Q) (wlen mult : option Q) (p : plan) :
  window_plan npts samp_rate per_lap wlen mult = inr p ->
  exists w, select_nfft npts w samp_rate = inr (nfft p) /\ wlen_used p = w.
Proof.
  unfold window_plan.
  set (w := if falsy wlen then samp_rate / 100
            else match wlen with Some w => w | None => samp_rate / 100 end).
  destruct (select_nfft npts w samp_rate) as [e|n] eqn:E; cbn [ebind]; [discriminate|].
  destruct mult as [m|]; [destruct (nearestPow2 m)|]; cbn [ebind];
    intro H; try discriminate; injection H as <-; exists w; auto.
Qed.

(** C2. For [npts >= 1] the plan never has [nfft > npts]: when the first
    [nfft = int(nearestPow2(wlen * samp_rate))] exceeds [npts] it is
    recomputed as [int(nearestPow2(npts / 8))], and that value (before and
    after truncation) is at most [npts]; for [npts = 100] it is 16. *)
Theorem nfft_never_exceeds_npts (npts : Z) (wlen samp_rate : Q) :
  (1 <= npts)%Z ->
  exists p8 : Q,
    nearestPow2 (inject_Z npts / 8) = Some p8 /\
    p8 <= inject_Z npts /\ (int p8 <= npts)%Z /\
    (forall n, select_nfft npts wlen samp_rate = inr n -> (n <= npts)%Z) /\
    (forall p0, nearestPow2 (wlen * samp_rate) = Some p0 -> (int p0 > npts)%Z ->
       select_nfft npts wlen samp_rate = inr (int p8)) /\
    (0 < wlen * samp_rate -> exists n, select_nfft npts wlen samp_rate = inr n) /\
    (forall per_lap wl mult p, window_plan npts samp_rate per_lap wl mult = inr p ->
       (nfft p <= npts)%Z) /\
    (npts = 100%Z -> int p8 = 16%Z).
Proof.
  intro H. destruct (fallback_bounded npts H) as (p8 & E8 & Hq & Hi).
  exists p8. split; [exact E8|]. split; [exact Hq|]. split; [exact Hi|].
  split; [intros n; apply select_nfft_bounded; exact H|].
  split.
  { intros p0 E0 G. unfold select_nfft. rewrite E0, E8.
    apply Z.gtb_gt in G. rewrite G. reflexivity. }
  split.
  { intro Hpos. destruct (nearestPow2_defined _ Hpos) as [p0 E0].
    unfold select_nfft. rewrite E0, E8. destruct (int p0 >? npts)%Z; eauto. }
  split.
  { intros per_lap wl mult p Hp.
    destruct (window_plan_nfft _ _ _ _ _ _ Hp) as (w & Hw & _).
    apply (select_nfft_bounded npts w samp_rate); assumption. }
  intros ->. vm_compute in E8. injection E8 as <-. reflexivity.
Qed.

Lemma nfft_never_exceeds_npts_witness :
  exists p8 : Q,
    nearestPow2 (inject_Z 100 / 8) = Some p8 /\
    p8 <= inject_Z 100 /\ (int p8 <= 100)%Z /\
    (forall n, select_nfft 100 5 100 = inr n -> (n <= 100)%Z) /\
    (forall p0, nearestPow2 (5 * 100) = Some p0 -> (int p0 > 100)%Z ->
       select_nfft 100 5 100 = inr (int p8)) /\
    (0 < 5 * 100 -> exists n, select_nfft 100 5 100 = inr n) /\
    (forall per_lap wl mult p, window_plan 100 100 per_lap wl mult = inr p ->
       (nfft p <= 100)%Z) /\
    (100%Z = 100%Z -> int p8 = 16%Z).
Proof. apply (nfft_never_exceeds_npts 100 5 100). lia. Defined.

(** *** Indexing *)

Lemma getitem_nat (v : list Q) (i : nat) :
  (i < length v)%nat -> getitem v (Z.of_nat i) = inr (nth i v 0).
Proof.
  intro H. unfold getitem.
  destruct (Z.ltb_spec (Z.of_nat i) 0) as [Hn|_]; [lia|].
  destruct (Z.leb_spec 0 (Z.of_nat i)) as [_|Hn]; [|lia].
  destruct (Z.ltb_spec (Z.of_nat i) (Z.of_nat (length v))) as [_|Hn]; [|lia].
  cbn [andb]. rewrite Nat2Z.id.
  rewrite (nth_error_nth' v 0 H). reflexivity.
Qed.

Lemma getitem_out_of_range (v : list Q) (i : nat) :
  (length v <= i)%nat -> getitem v (Z.of_nat i) = inl (IndexError index_msg).
Proof.
  intro H. unfold getitem.
  destruct (Z.ltb_spec (Z.of_nat i) 0) as [Hn|_]; [lia|].
  destruct (Z.ltb_spec (Z.of_nat i) (Z.of_nat (length v))) as [Hn|_]; [lia|].
  rewrite andb_false_r. reflexivity.
Qed.

Lemma nth_pred_last (v : list Q) (d : Q) :
  v <> [] -> nth (length v - 1) v d = last v d.
Proof.
  induction v as [|a l IH]; [congruence|]. intros _.
  destruct l as [|b l']; [reflexivity|].
  change (last (a :: b :: l') d) with (last (b :: l') d).
  rewrite <- IH by discriminate.
  cbn [length]. replace (S (S (length l')) - 1)%nat with (S (length l')) by lia.
  replace (S (length l') - 1)%nat with (length l') by lia. reflexivity.
Qed.

Lemma getitem_last (v : list Q) : v <> [] -> getitem v (-1) = inr (last v 0).
Proof.
  intro H. unfold getitem.
  assert (Hl : (0 < length v)%nat) by (destruct v; [congruence | cbn; lia]).
  change (-1 <? 0)%Z with true. cbv iota.
  destruct (Z.leb_spec 0 (-1 + Z.of_nat (length v))) as [_|Hn]; [|lia].
  destruct (Z.ltb_spec (-1 + Z.of_nat (length v)) (Z.of_nat (length v))) as [_|Hn]; [|lia].
  cbn [andb].
  replace (Z.to_nat (-1 + Z.of_nat (length v))) with (length v - 1)%nat by lia.
  rewrite (nth_error_nth' v 0) by lia.
  rewrite nth_pred_last by exact H. reflexivity.
Qed.

(** *** The colour normalizer *)

Lemma Qltb_lt (x y : Q) : Qltb x y = true <-> x < y.
Proof.
  unfold Qltb. rewrite negb_true_iff. split; intro H.
  - destruct (Qlt_le_dec x y) as [L|L]; [exact L|].
    apply Qle_bool_iff in L. congruence.
  - destruct (Qle_bool y x) eqn:E; [|reflexivity].
    apply Qle_bool_iff in E. lra.
Qed.

Lemma clip_invalid_iff (lowFrac highFrac : Q) :
  clip_invalid (lowFrac, highFrac) = true <->
  (lowFrac < 0 \/ 1 < highFrac \/ highFrac <= lowFrac).
Proof.
  unfold clip_invalid. rewrite !orb_true_iff, !Qltb_lt, Qle_bool_iff. tauto.
Qed.

Lemma color_normalizer_valid (spectrogram : matrix) (clip : Q * Q) :
  clip_invalid clip = false ->
  color_normalizer spectrogram clip = inl (ValueError zero_size_msg) \/
  exists vmin vmax, color_normalizer spectrogram clip = inr (vmin, vmax).
Proof.
  intro H. unfold color_normalizer. destruct clip as [lo hi]. rewrite H.
  unfold array_max, array_min.
  destruct (concat spectrogram); cbn [ebind]; [left; reflexivity | right; eauto].
Qed.

(** C5. The colour normalizer raises the clip [ValueError] exactly when
    [lowFrac < 0] or [highFrac > 1] or [lowFrac >= highFrac]; it rejects
    (0.5, 0.3), (-0.1, 1.0) and (0.0, 1.2) and accepts (0.0, 1.0) and
    (0.1, 0.9). *)
Theorem clip_rejected_iff (spectrogram : matrix) (lowFrac highFrac : Q) :
  (color_normalizer spectrogram (lowFrac, highFrac) = inl (ValueError clip_msg) <->
   (lowFrac < 0 \/ 1 < highFrac \/ highFrac <= lowFrac)) /\
  color_normalizer spectrogram (1 # 2, 3 # 10) = inl (ValueError clip_msg) /\
  color_normalizer spectrogram (- (1 # 10), 1) = inl (ValueError clip_msg) /\
  color_normalizer spectrogram (0, 12 # 10) = inl (ValueError clip_msg) /\
  clip_invalid (0, 1) = false /\
  clip_invalid (1 # 10, 9 # 10) = false /\
  (clip_invalid (lowFrac, highFrac) = false <->
   (0 <= lowFrac /\ lowFrac < highFrac /\ highFrac <= 1)).
Proof.
  split.
  { rewrite <- clip_invalid_iff. split.
    - intro E. destruct (clip_invalid (lowFrac, highFrac)) eqn:C; [reflexivity|].
      destruct (color_normalizer_valid spectrogram _ C) as [E'|(a & b & E')];
        rewrite E' in E; discriminate.
    - intro C. unfold color_normalizer. rewrite C. reflexivity. }
  do 5 (split; [reflexivity|]).
  split.
  - intro C.
    assert (N : ~ (lowFrac < 0 \/ 1 < highFrac \/ highFrac <= lowFrac)).
    { rewrite <- clip_invalid_iff. congruence. }
    destruct (Qlt_le_dec lowFrac 0); [tauto|].
    destruct (Qlt_le_dec lowFrac highFrac); [|tauto].
    destruct (Qlt_le_dec 1 highFrac); tauto.
  - intros (A & B & C). destruct (clip_invalid (lowFrac, highFrac)) eqn:I; [|reflexivity].
    apply clip_invalid_iff in I. lra.
Qed.

(** *** The amplitude transform *)

(** C6. The amplitude transform drops exactly row 0 of the grid and entry
    0 of the frequency vector and applies [10 * log10] (dbscale) or [sqrt]
    to every remaining entry: output row [i] is input row [i + 1], and the
    output has one row less than the input. *)
Theorem amplitude_transform_drops_dc (np_log10 np_sqrt : Q -> Q) (dbscale : bool)
    (raw : matrix) (freq : list Q) :
  (1 <= length raw)%nat ->
  let scale := if dbscale then (fun v => 10 * np_log10 v) else np_sqrt in
  let out := amplitude_transform np_log10 np_sqrt dbscale raw freq in
  fst out = map (map scale) (tl raw) /\
  snd out = tl freq /\
  (Z.of_nat (length (fst out)) = Z.of_nat (length raw) - 1)%Z /\
  (forall i, nth_error (fst out) i = option_map (map scale) (nth_error raw (S i))) /\
  (forall i, nth_error (snd out) i = nth_error freq (S i)).
Proof.
  intros Hrows scale out.
  assert (E : fst out = map (map scale) (tl raw)).
  { unfold out, amplitude_transform, scale. destruct dbscale; reflexivity. }
  split; [exact E|]. split; [reflexivity|].
  split.
  { rewrite E, length_map. destruct raw; cbn [tl length] in *; lia. }
  split.
  - intro i. rewrite E, nth_error_map. destruct raw; [cbn in Hrows; lia | reflexivity].
  - intro i. cbn. destruct freq; [destruct i|]; reflexivity.
Qed.

Lemma amplitude_transform_drops_dc_witness :
  let scale := if true then (fun v => 10 * Mlab.stand_in v) else Mlab.stand_in in
  let out := amplitude_transform Mlab.stand_in Mlab.stand_in true
               [[5; 6]; [1; 2]; [3; 4]] [0; 10; 20] in
  fst out = map (map scale) (tl [[5; 6]; [1; 2]; [3; 4]]) /\
  snd out = tl [0; 10; 20] /\
  (Z.of_nat (length (fst out)) = Z.of_nat (length [[5; 6]; [1; 2]; [3; 4]]) - 1)%Z /\
  (forall i, nth_error (fst out) i =
             option_map (map scale) (nth_error [[5; 6]; [1; 2]; [3; 4]] (S i))) /\
  (forall i, nth_error (snd out) i = nth_error [0; 10; 20] (S i)).
Proof.
  apply (amplitude_transform_drops_dc Mlab.stand_in Mlab.stand_in true
           [[5; 6]; [1; 2]; [3; 4]] [0; 10; 20]).
  cbn. lia.
Defined.

(** *** The axis binner *)

Lemma ascending_shift (v : list Q) (h : Q) :
  ascending v -> ascending (map (fun e => e - h) v).
Proof.
  unfold ascending. induction 1 as [|a l Hs IH Hd]; cbn [map]; constructor.
  - exact IH.
  - destruct Hd as [|b l' Hab]; cbn [map]; constructor. lra.
Qed.

Lemma ascending_snoc (v : list Q) (x : Q) :
  ascending v -> last v x < x \/ v = [] -> ascending (v ++ [x]).
Proof.
  unfold ascending. induction 1 as [|a l Hs IH Hd]; intro Hx.
  - cbn. repeat constructor.
  - destruct Hx as [Hx|Hx]; [|discriminate].
    destruct l as [|b l'].
    + cbn in *. repeat constructor. exact Hx.
    + cbn [app]. constructor.
      * apply IH. left. exact Hx.
      * inversion Hd; subst. constructor. assumption.
Qed.

Lemma halfbin_two (v : list Q) :
  (2 <= length v)%nat -> halfbin v = inr ((nth 1 v 0 - nth 0 v 0) / 2).
Proof.
  intro H. unfold halfbin.
  assert (H1 : getitem v 1 = inr (nth 1 v 0)) by (apply (getitem_nat v 1); lia).
  assert (H0 : getitem v 0 = inr (nth 0 v 0)) by (apply (getitem_nat v 0); lia).
  rewrite H1, H0. reflexivity.
Qed.

Lemma halfbin_pos (v : list Q) :
  (2 <= length v)%nat -> ascending v -> 0 < (nth 1 v 0 - nth 0 v 0) / 2.
Proof.
  intros H Ha. destruct v as [|v0 [|v1 l]]; cbn in H; try lia.
  cbn [nth]. inversion Ha as [|? ? _ Hd]; subst. inversion Hd; subst.
  apply Qlt_shift_div_l; lra.
Qed.

Lemma last_indep (v : list Q) (d d' : Q) : v <> [] -> last v d = last v d'.
Proof.
  induction v as [|a l IH]; [congruence|]. intros _.
  destruct l as [|b l']; [reflexivity|].
  change (last (a :: b :: l') d) with (last (b :: l') d).
  change (last (a :: b :: l') d') with (last (b :: l') d').
  apply IH. discriminate.
Qed.

Lemma bin_edges_ok (v : list Q) (h : Q) :
  (2 <= length v)%nat -> ascending v -> 0 < h ->
  bin_edges v h = inr (map (fun e => e - h) (v ++ [last v 0 + 2 * h])) /\
  length (map (fun e => e - h) (v ++ [last v 0 + 2 * h])) = (length v + 1)%nat /\
  ascending (map (fun e => e - h) (v ++ [last v 0 + 2 * h])).
Proof.
  intros H Ha Hh.
  assert (Hne : v <> []) by (destruct v; [cbn in H; lia | discriminate]).
  split; [|split].
  - unfold bin_edges. rewrite (getitem_last v Hne). reflexivity.
  - rewrite length_map, length_app. reflexivity.
  - apply ascending_shift, ascending_snoc; [exact Ha|]. left.
    rewrite (last_indep v _ 0 Hne). lra.
Qed.

(** C8. In logarithmic mode, for strictly ascending frequency and time
    vectors of length [N >= 2] and [M >= 2], the half-bin width of each
    axis is [(v[1] - v[0]) / 2], which is positive, and the edge vectors
    are the vectors with [v[-1] + 2 * halfbin] appended and the half-bin
    width subtracted from every element; they have lengths [N + 1] and
    [M + 1], are strictly increasing, and are what the mesh call
    receives. *)
Theorem log_bin_edges (V : list Z) (freq time : list Q) (spectrogram : matrix)
    (norm : Q * Q) :
  (2 <= length freq)%nat -> (2 <= length time)%nat ->
  ascending freq -> ascending time ->
  exists halfbin_freq halfbin_time freq_last time_last freqEdges timeEdges,
    halfbin freq = inr halfbin_freq /\ halfbin time = inr halfbin_time /\
    halfbin_freq = (nth 1 freq 0 - nth 0 freq 0) / 2 /\
    halfbin_time = (nth 1 time 0 - nth 0 time 0) / 2 /\
    0 < halfbin_freq /\ 0 < halfbin_time /\
    getitem freq (-1) = inr freq_last /\ getitem time (-1) = inr time_last /\
    freq_last = last freq 0 /\ time_last = last time 0 /\
    freqEdges = map (fun e => e - halfbin_freq) (freq ++ [freq_last + 2 * halfbin_freq]) /\
    timeEdges = map (fun e => e - halfbin_time) (time ++ [time_last + 2 * halfbin_time]) /\
    bin_edges freq halfbin_freq = inr freqEdges /\
    bin_edges time halfbin_time = inr timeEdges /\
    length freqEdges = (length freq + 1)%nat /\
    length timeEdges = (length time + 1)%nat /\
    ascending freqEdges /\ ascending timeEdges /\
    axis_binner V true time freq spectrogram norm =
      ([if list_ge V [0; 98; 3]%Z
        then pcolormesh_call timeEdges freqEdges spectrogram (fst norm) (snd norm)
        else pcolor_call timeEdges freqEdges spectrogram (fst norm) (snd norm)],
       inr tt).
Proof.
  intros Hf Ht Af At.
  pose proof (halfbin_two freq Hf) as Ehf.
  pose proof (halfbin_two time Ht) as Eht.
  pose proof (halfbin_pos freq Hf Af) as Pf.
  pose proof (halfbin_pos time Ht At) as Pt.
  set (hf := (nth 1 freq 0 - nth 0 freq 0) / 2) in *.
  set (ht := (nth 1 time 0 - nth 0 time 0) / 2) in *.
  destruct (bin_edges_ok freq hf Hf Af Pf) as (Bf & Lf & Sf).
  destruct (bin_edges_ok time ht Ht At Pt) as (Bt & Lt & St).
  assert (Nf : freq <> []) by (destruct freq; [cbn in Hf; lia | discriminate]).
  assert (Nt : time <> []) by (destruct time; [cbn in Ht; lia | discriminate]).
  exists hf, ht, (last freq 0), (last time 0).
  eexists. eexists.
  split; [exact Ehf|]. split; [exact Eht|].
  split; [reflexivity|]. split; [reflexivity|].
  split; [exact Pf|]. split; [exact Pt|].
  split; [apply getitem_last; exact Nf|]. split; [apply getitem_last; exact Nt|].
  split; [reflexivity|]. split; [reflexivity|].
  split; [reflexivity|]. split; [reflexivity|].
  split; [exact Bf|]. split; [exact Bt|].
  split; [exact Lf|]. split; [exact Lt|].
  split; [exact Sf|]. split; [exact St|].
  unfold axis_binner. rewrite Ehf, Eht. cbn [lift bind fst snd app].
  rewrite Bf, Bt. cbn [lift bind fst snd app].
  destruct (list_ge V [0; 98; 3]%Z); reflexivity.
Qed.

Lemma log_bin_edges_witness :
  exists halfbin_freq halfbin_time freq_last time_last freqEdges timeEdges,
    halfbin [10; 20; 30] = inr halfbin_freq /\ halfbin [1; 2] = inr halfbin_time /\
    halfbin_freq = (nth 1 [10; 20; 30] 0 - nth 0 [10; 20; 30] 0) / 2 /\
    halfbin_time = (nth 1 [1; 2] 0 - nth 0 [1; 2] 0) / 2 /\
    0 < halfbin_freq /\ 0 < halfbin_time /\
    getitem [10; 20; 30] (-1) = inr freq_last /\ getitem [1; 2] (-1) = inr time_last /\
    freq_last = last [10; 20; 30] 0 /\ time_last = last [1; 2] 0 /\
    freqEdges = map (fun e => e - halfbin_freq) ([10; 20; 30] ++ [freq_last + 2 * halfbin_freq]) /\
    timeEdges = map (fun e => e - halfbin_time) ([1; 2] ++ [time_last + 2 * halfbin_time]) /\
    bin_edges [10; 20; 30] halfbin_freq = inr freqEdges /\
    bin_edges [1; 2] halfbin_time = inr timeEdges /\
    length freqEdges = (length [10; 20; 30] + 1)%nat /\
    length timeEdges = (length [1; 2] + 1)%nat /\
    ascending freqEdges /\ ascending timeEdges /\
    axis_binner [1; 0; 0]%Z true [1; 2] [10; 20; 30] [[1; 1]; [1; 1]; [1; 1]] (0, 1) =
      ([if list_ge [1; 0; 0]%Z [0; 98; 3]%Z
        then pcolormesh_call timeEdges freqEdges [[1; 1]; [1; 1]; [1; 1]] (fst (0, 1)) (snd (0, 1))
        else pcolor_call timeEdges freqEdges [[1; 1]; [1; 1]; [1; 1]] (fst (0, 1)) (snd (0, 1))],
       inr tt).
Proof.
  apply (log_bin_edges [1; 0; 0]%Z [10; 20; 30] [1; 2] [[1; 1]; [1; 1]; [1; 1]] (0, 1)).
  - cbn; lia.
  - cbn; lia.
  - unfold ascending. repeat constructor.
  - unfold ascending. repeat constructor.
Defined.

(** *** The whole pipeline *)

Lemma bind_emit {B : Type} (ev : event) (k : unit -> M B) :
  bind (emit ev) k = (ev :: fst (k tt), snd (k tt)).
Proof. reflexivity. Qed.

Lemma window_plan_falsy (npts : Z) (samp_rate per_lap : Q) (wlen mult : option Q) :
  falsy wlen = true ->
  window_plan npts samp_rate per_lap wlen mult =
  window_plan npts samp_rate per_lap None mult.
Proof. intro H. unfold window_plan. rewrite H. reflexivity. Qed.

Lemma default_window_pos (samp_rate : Q) : 0 < samp_rate -> 0 < samp_rate / 100 * samp_rate.
Proof.
  intro H. setoid_replace (samp_rate / 100 * samp_rate)
    with (samp_rate * samp_rate * (1 # 100)) by field.
  nra.
Qed.

Lemma select_nfft_defined (npts : Z) (wlen samp_rate : Q) :
  (1 <= npts)%Z -> 0 < wlen * samp_rate ->
  exists n, select_nfft npts wlen samp_rate = inr n.
Proof.
  intros H Hpos. destruct (fallback_bounded npts H) as (p8 & E8 & _).
  destruct (nearestPow2_defined _ Hpos) as [p0 E0].
  unfold select_nfft. rewrite E0, E8. destruct (int p0 >? npts)%Z; eauto.
Qed.

(** C10. A window length of zero is falsy, like an omitted one: for
    [fs > 0] the plan and the whole run are those of [wlen = None], the
    window length used is [fs / 100], and the plan exists (for at least one
    sample and a positive or disabled [mult]) although
    [nearestPow2(0 * fs)] itself is undefined. *)
Theorem falsy_wlen_uses_default (V : list Z)
    (sg : list Q -> Q -> Z -> option Z -> Z -> exn + spectrum)
    (lg sq : Q -> Q) (data : list Q) (fs per_lap w : Q)
    (log axes dbscale : bool) (mult : option Q) (clip : Q * Q) :
  0 < fs -> falsy (Some w) = true ->
  w == 0 /\ nearestPow2 (w * fs) = None /\
  (forall npts,
     window_plan npts fs per_lap (Some w) mult = window_plan npts fs per_lap None mult) /\
  (forall npts p, window_plan npts fs per_lap (Some w) mult = inr p ->
     wlen_used p = fs / 100) /\
  (forall npts, (1 <= npts)%Z ->
     mult = None \/ (exists m, mult = Some m /\ 0 < m) ->
     exists p, window_plan npts fs per_lap (Some w) mult = inr p) /\
  spectrogram V sg lg sq data fs per_lap (Some w) log axes dbscale mult clip =
  spectrogram V sg lg sq data fs per_lap None log axes dbscale mult clip.
Proof.
  intros Hfs Hw.
  assert (W0 : w == 0) by (apply Qeq_bool_iff; exact Hw).
  split; [exact W0|]. split.
  { unfold nearestPow2. destruct (Qlt_le_dec 0 (w * fs)) as [L|L]; [|reflexivity].
    rewrite W0 in L. lra. }
  split; [intro npts; apply window_plan_falsy; exact Hw|].
  split.
  { intros npts p Hp. destruct (window_plan_nfft _ _ _ _ _ _ Hp) as (w' & _ & E).
    rewrite E. unfold falsy in Hw. unfold window_plan in Hp. cbn [falsy] in Hp.
    rewrite Hw in Hp.
    destruct (select_nfft npts (fs / 100) fs); cbn [ebind] in Hp; [discriminate|].
    destruct mult as [m|]; [destruct (nearestPow2 m)|]; cbn [ebind] in Hp;
      try discriminate; injection Hp as <-; cbn in E; congruence. }
  split.
  { intros npts Hn Hm. rewrite window_plan_falsy by exact Hw.
    unfold window_plan. cbn [falsy].
    destruct (select_nfft_defined npts (fs / 100) fs Hn (default_window_pos fs Hfs)) as [n En].
    rewrite En. cbn [ebind].
    destruct Hm as [->|(m & -> & Hm)]; cbn [ebind]; [eauto|].
    destruct (nearestPow2_defined m Hm) as [pm Em]. rewrite Em. cbn [ebind]. eauto. }
  unfold spectrogram, spectral_stage.
  rewrite (window_plan_falsy _ _ _ (Some w) mult Hw). reflexivity.
Qed.

Lemma falsy_wlen_uses_default_witness :
  0 == 0 /\ nearestPow2 (0 * 100) = None /\
  (forall npts,
     window_plan npts 100 (9 # 10) (Some 0) (Some 8) =
     window_plan npts 100 (9 # 10) None (Some 8)) /\
  (forall npts p, window_plan npts 100 (9 # 10) (Some 0) (Some 8) = inr p ->
     wlen_used p = 100 / 100) /\
  (forall npts, (1 <= npts)%Z ->
     Some 8 = None \/ (exists m, Some 8 = Some m /\ 0 < m) ->
     exists p, window_plan npts 100 (9 # 10) (Some 0) (Some 8) = inr p) /\
  spectrogram [1; 0; 0]%Z (Mlab.specgram Mlab.unit_power) Mlab.stand_in Mlab.stand_in
    [1; 2; 3; 4; 5; 6; 7; 8] 100 (9 # 10) (Some 0) false false false (Some 8) (0, 1) =
  spectrogram [1; 0; 0]%Z (Mlab.specgram Mlab.unit_power) Mlab.stand_in Mlab.stand_in
    [1; 2; 3; 4; 5; 6; 7; 8] 100 (9 # 10) None false false false (Some 8) (0, 1).
Proof.
  apply (falsy_wlen_uses_default [1; 0; 0]%Z (Mlab.specgram Mlab.unit_power)
           Mlab.stand_in Mlab.stand_in [1; 2; 3; 4; 5; 6; 7; 8] 100 (9 # 10) 0
           false false false (Some 8) (0, 1)).
  - reflexivity.
  - reflexivity.
Defined.

Lemma spectral_stage_inr (V : list Z)
    (sg : list Q -> Q -> Z -> option Z -> Z -> exn + spectrum)
    (data : list Q) (fs per_lap : Q) (wlen mult : option Q)
    (t : list event) (r : Q * spectrum) :
  spectral_stage V sg data fs per_lap wlen mult = (t, inr r) ->
  exists p m,
    window_plan (Z.of_nat (length data)) fs per_lap wlen mult = inr p /\
    mean data = inr m /\
    truediv (inject_Z (Z.of_nat (length data))) fs = inr (fst r) /\
    let pad_to := if list_ge V [0; 99; 0]%Z then pad p else None in
    let d := map (fun v => v - m) data in
    t = [specgram_call d fs (nfft p) pad_to (nlap p)] /\
    sg d fs (nfft p) pad_to (nlap p) = inr (snd r).
Proof.
  unfold spectral_stage.
  destruct (window_plan _ fs per_lap wlen mult) as [e|p]; [discriminate|].
  destruct (mean data) as [e|m]; [discriminate|].
  destruct (truediv _ fs) as [e|en]; [discriminate|].
  cbn. destruct (sg _ fs (nfft p) _ (nlap p)) as [e|raw] eqn:E; cbn; [discriminate|].
  intro H. injection H as <- <-. exists p, m. cbn. auto.
Qed.

Lemma render_stage_clip_invalid (V : list Z) (lg sq : Q -> Q) (end_ : Q) (raw : spectrum)
    (log axes dbscale : bool) (clip : Q * Q) :
  clip_invalid clip = true ->
  render_stage V lg sq end_ raw log axes dbscale clip = ([], inl (ValueError clip_msg)).
Proof.
  intro H. unfold render_stage. destruct raw as [[s f] t].
  destruct (amplitude_transform lg sq dbscale s f) as [s' f'].
  unfold color_normalizer. destruct clip as [lo hi]. rewrite H. reflexivity.
Qed.

Lemma spectrogram_after_stage (V : list Z)
    (sg : list Q -> Q -> Z -> option Z -> Z -> exn + spectrum) (lg sq : Q -> Q)
    (data : list Q) (fs per_lap : Q) (wlen : option Q) (log axes dbscale : bool)
    (mult : option Q) (clip : Q * Q) (t : list event) (r : Q * spectrum) :
  spectral_stage V sg data fs per_lap wlen mult = (t, inr r) ->
  spectrogram V sg lg sq data fs per_lap wlen log axes dbscale mult clip =
  (t ++ fst (render_stage V lg sq (fst r) (snd r) log axes dbscale clip),
   snd (render_stage V lg sq (fst r) (snd r) log axes dbscale clip)).
Proof. intro H. unfold spectrogram. rewrite H. reflexivity. Qed.

(** C3, as the code has it. An invalid clip pair is detected only after
    the estimator has run: when the plan, the detrending and the estimator
    succeed, the trace is exactly the one call of [mlab.specgram] and the
    run ends in the clip [ValueError]; when an earlier step fails, that
    failure is the outcome.  Either way no rendering call is made. *)
Theorem clip_checked_after_estimator (V : list Z)
    (sg : list Q -> Q -> Z -> option Z -> Z -> exn + spectrum) (lg sq : Q -> Q)
    (data : list Q) (fs per_lap : Q) (wlen : option Q) (log axes dbscale : bool)
    (mult : option Q) (clip : Q * Q) :
  clip_invalid clip = true ->
  (forall t r, spectral_stage V sg data fs per_lap wlen mult = (t, inr r) ->
     (exists d n pd nl, t = [specgram_call d fs n pd nl] /\ sg d fs n pd nl = inr (snd r)) /\
     spectrogram V sg lg sq data fs per_lap wlen log axes dbscale mult clip =
       (t, inl (ValueError clip_msg))) /\
  (forall t e, spectral_stage V sg data fs per_lap wlen mult = (t, inl e) ->
     spectrogram V sg lg sq data fs per_lap wlen log axes dbscale mult clip = (t, inl e)).
Proof.
  intro H. split.
  - intros t r Hs. split.
    + destruct (spectral_stage_inr _ _ _ _ _ _ _ _ _ Hs) as (p & m & _ & _ & _ & Ht & Hsg).
      cbv zeta in Ht, Hsg. eauto 6.
    + rewrite (spectrogram_after_stage _ _ lg sq _ _ _ _ log axes dbscale _ clip _ _ Hs).
      rewrite render_stage_clip_invalid by exact H. cbn. rewrite app_nil_r. reflexivity.
  - intros t e Hs. unfold spectrogram. rewrite Hs. reflexivity.
Qed.

Lemma clip_checked_after_estimator_witness :
  (forall t r,
     spectral_stage [1; 0; 0]%Z (Mlab.specgram Mlab.unit_power)
       [1; 2; 3; 4; 5; 6; 7; 8] 100 (9 # 10) (Some (4 # 100)) None = (t, inr r) ->
     (exists d n pd nl, t = [specgram_call d 100 n pd nl] /\
                        Mlab.specgram Mlab.unit_power d 100 n pd nl = inr (snd r)) /\
     spectrogram [1; 0; 0]%Z (Mlab.specgram Mlab.unit_power) Mlab.stand_in Mlab.stand_in
       [1; 2; 3; 4; 5; 6; 7; 8] 100 (9 # 10) (Some (4 # 100)) false false false None
       (1 # 2, 3 # 10) = (t, inl (ValueError clip_msg))) /\
  (forall t e,
     spectral_stage [1; 0; 0]%Z (Mlab.specgram Mlab.unit_power)
       [1; 2; 3; 4; 5; 6; 7; 8] 100 (9 # 10) (Some (4 # 100)) None = (t, inl e) ->
     spectrogram [1; 0; 0]%Z (Mlab.specgram Mlab.unit_power) Mlab.stand_in Mlab.stand_in
       [1; 2; 3; 4; 5; 6; 7; 8] 100 (9 # 10) (Some (4 # 100)) false false false None
       (1 # 2, 3 # 10) = (t, inl e)).
Proof.
  apply (clip_checked_after_estimator [1; 0; 0]%Z (Mlab.specgram Mlab.unit_power)
           Mlab.stand_in Mlab.stand_in [1; 2; 3; 4; 5; 6; 7; 8] 100 (9 # 10)
           (Some (4 # 100)) false false false None (1 # 2, 3 # 10)).
  reflexivity.
Defined.

(** C3, as the claim states it, fails: with the invalid clip pair
    (0.5, 0.3) the estimator is called (with [NFFT = 4], [noverlap = 3])
    before the [ValueError] is raised. *)
Lemma clip_error_after_fft :
  spectrogram [1; 0; 0]%Z (Mlab.specgram Mlab.unit_power) Mlab.stand_in Mlab.stand_in
    [1; 2; 3; 4; 5; 6; 7; 8] 100 (9 # 10) (Some (4 # 100)) false false false None
    (1 # 2, 3 # 10) =
  ([specgram_call (map (fun v => v - (36 # 8)) [1; 2; 3; 4; 5; 6; 7; 8]) 100 4 None 3],
   inl (ValueError clip_msg)) /\
  clip_invalid (1 # 2, 3 # 10) = true.
Proof. split; vm_compute; reflexivity. Qed.

Lemma array_max_defined (a : matrix) : concat a <> [] -> exists v, array_max a = inr v.
Proof. unfold array_max. destruct (concat a); [congruence | eauto]. Qed.

Lemma array_min_defined (a : matrix) : concat a <> [] -> exists v, array_min a = inr v.
Proof. unfold array_min. destruct (concat a); [congruence | eauto]. Qed.

Lemma scaled_nonempty (g : Q -> Q) (s : matrix) (f t : list Q) :
  well_shaped (s, f, t) -> (1 <= length t)%nat -> (1 <= length (tl f))%nat ->
  concat (map (map g) (tl s)) <> [].
Proof.
  intros [Hl Hr] Ht Hf.
  destruct s as [|dc [|row rest]]; destruct f as [|f0 [|f1 fs]]; cbn in Hl, Hf; try lia.
  inversion Hr as [|? ? _ Hr']; subst. inversion Hr' as [|? ? Hrow _]; subst.
  destruct row as [|q row]; [cbn in Hrow; lia|]. cbn. discriminate.
Qed.

Lemma halfbin_single (v : list Q) :
  length v = 1%nat -> halfbin v = inl (IndexError index_msg).
Proof.
  intro H. unfold halfbin.
  assert (E : getitem v 1 = inl (IndexError index_msg))
    by (apply (getitem_out_of_range v 1); lia).
  rewrite E. reflexivity.
Qed.

Lemma axis_binner_single (V : list Z) (log : bool) (time freq : list Q)
    (spectrogram : matrix) (norm : Q * Q) :
  (1 <= length time)%nat -> (1 <= length freq)%nat ->
  length time = 1%nat \/ length freq = 1%nat ->
  axis_binner V log time freq spectrogram norm = ([], inl (IndexError index_msg)).
Proof.
  intros Ht Hf Hone. unfold axis_binner.
  destruct (Nat.eq_dec (length time) 1) as [E|E].
  - rewrite (halfbin_single time E). reflexivity.
  - rewrite (halfbin_two time) by lia.
    destruct Hone as [Hone|Hone]; [congruence|].
    rewrite (halfbin_single freq Hone). reflexivity.
Qed.

Lemma render_stage_single_bin (V : list Z) (lg sq : Q -> Q) (end_ : Q)
    (s : matrix) (f t : list Q) (log axes dbscale : bool) (clip : Q * Q) :
  clip_invalid clip = false ->
  well_shaped (s, f, t) -> (1 <= length t)%nat -> (1 <= length (tl f))%nat ->
  length t = 1%nat \/ length (tl f) = 1%nat ->
  render_stage V lg sq end_ (s, f, t) log axes dbscale clip =
  (if axes then [] else [figure_call], inl (IndexError index_msg)).
Proof.
  intros Hc Hw Ht Hf Hone. unfold render_stage, amplitude_transform.
  set (s' := if dbscale then map (map (fun v => 10 * lg v)) (tl s) else map (map sq) (tl s)).
  assert (Hne : concat s' <> []).
  { unfold s'. destruct dbscale; apply (scaled_nonempty _ s f t); assumption. }
  destruct (array_max_defined s' Hne) as [mx Emx].
  destruct (array_min_defined s' Hne) as [mn Emn].
  unfold color_normalizer. destruct clip as [lo hi]. rewrite Hc, Emx, Emn.
  cbn [ebind lift bind fst snd app].
  rewrite (axis_binner_single V log t (tl f)) by assumption.
  destruct axes; reflexivity.
Qed.

(** C9, as the code has it. With a valid clip pair, when the estimator
    returns a well-shaped spectrum with at least one time bin and at least
    one frequency bin after the zero-frequency row is dropped, and one of
    the two axes has exactly one bin, indexing element 1 of that axis
    fails and the run ends in an [IndexError] (after the figure is
    created, when no axes were given). *)
Theorem single_bin_index_error (V : list Z)
    (sg : list Q -> Q -> Z -> option Z -> Z -> exn + spectrum) (lg sq : Q -> Q)
    (data : list Q) (fs per_lap : Q) (wlen : option Q) (log axes dbscale : bool)
    (mult : option Q) (clip : Q * Q)
    (tr : list event) (end_ : Q) (s : matrix) (f t : list Q) :
  clip_invalid clip = false ->
  spectral_stage V sg data fs per_lap wlen mult = (tr, inr (end_, (s, f, t))) ->
  well_shaped (s, f, t) ->
  (1 <= length t)%nat -> (1 <= length (tl f))%nat ->
  length t = 1%nat \/ length (tl f) = 1%nat ->
  (getitem t 1 = inl (IndexError index_msg) \/
   getitem (tl f) 1 = inl (IndexError index_msg)) /\
  spectrogram V sg lg sq data fs per_lap wlen log axes dbscale mult clip =
  (tr ++ (if axes then [] else [figure_call]), inl (IndexError index_msg)).
Proof.
  intros Hc Hs Hw Ht Hf Hone. split.
  - destruct Hone as [H|H]; [left | right];
      apply (getitem_out_of_range _ 1); lia.
  - rewrite (spectrogram_after_stage _ _ lg sq _ _ _ _ log axes dbscale _ clip _ _ Hs).
    cbn [fst snd].
    rewrite render_stage_single_bin by assumption. reflexivity.
Qed.

Lemma single_bin_index_error_witness :
  (getitem [4 # 200] 1 = inl (IndexError index_msg) \/
   getitem (tl [0 # 4; 100 # 4; 200 # 4]) 1 = inl (IndexError index_msg)) /\
  spectrogram [1; 0; 0]%Z (Mlab.specgram Mlab.unit_power) Mlab.stand_in Mlab.stand_in
    [1; 2; 3; 4] 100 (9 # 10) (Some (4 # 100)) false false false None (0, 1) =
  ([specgram_call (map (fun v => v - (10 # 4)) [1; 2; 3; 4]) 100 4 None 3] ++
     (if false then [] else [figure_call]),
   inl (IndexError index_msg)).
Proof.
  apply (single_bin_index_error [1; 0; 0]%Z (Mlab.specgram Mlab.unit_power)
           Mlab.stand_in Mlab.stand_in [1; 2; 3; 4] 100 (9 # 10) (Some (4 # 100))
           false false false None (0, 1)
           [specgram_call (map (fun v => v - (10 # 4)) [1; 2; 3; 4]) 100 4 None 3]
           (4 # 100) [[1]; [1]; [1]] [0 # 4; 100 # 4; 200 # 4] [4 # 200]).
  - reflexivity.
  - vm_compute. reflexivity.
  - split; [reflexivity | repeat constructor].
  - cbn; lia.
  - cbn; lia.
  - left. reflexivity.
Defined.

(** C9, as the claim states it, fails: the estimator returns a single
    time bin, but with the invalid clip pair (0.5, 0.3) the run ends in the
    clip [ValueError] before any index is taken. *)
Lemma single_bin_clip_error :
  spectral_stage [1; 0; 0]%Z (Mlab.specgram Mlab.unit_power)
    [1; 2; 3; 4] 100 (9 # 10) (Some (4 # 100)) None =
  ([specgram_call (map (fun v => v - (10 # 4)) [1; 2; 3; 4]) 100 4 None 3],
   inr (4 # 100, ([[1]; [1]; [1]], [0 # 4; 100 # 4; 200 # 4], [4 # 200]))) /\
  length [4 # 200] = 1%nat /\
  spectrogram [1; 0; 0]%Z (Mlab.specgram Mlab.unit_power) Mlab.stand_in Mlab.stand_in
    [1; 2; 3; 4] 100 (9 # 10) (Some (4 # 100)) false false false None (1 # 2, 3 # 10) =
  ([specgram_call (map (fun v => v - (10 # 4)) [1; 2; 3; 4]) 100 4 None 3],
   inl (ValueError clip_msg)).
Proof. repeat split; vm_compute; reflexivity. Qed.

(** *** The default scenario *)

Lemma Mlab_one_sided (power : list Q -> Z -> nat -> Q) : one_sided (Mlab.specgram power).
Proof.
  unfold one_sided, Mlab.specgram. intros data Fs NFFT pad_to noverlap s f t Hpad.
  set (pd := match pad_to with None => NFFT | Some p => p end) in *.
  destruct (NFFT - noverlap =? 0)%Z; [discriminate|].
  destruct (Qeq_bool Fs 0 || (pd =? 0)%Z)%bool; [discriminate|].
  intro H. injection H as <- _ _.
  rewrite length_map, length_seq, Z2Nat.id; [reflexivity|].
  clearbody pd. pose proof (Z.div_pos pd 2 Hpad ltac:(lia)). lia.
Qed.

Lemma default_plan :
  window_plan 1000 100 (9 # 10) None (Some 8) =
  inr {| wlen_used := 100 / 100; nfft := 128; pad := Some 1024%Z; nlap := 115 |}.
Proof. vm_compute. reflexivity. Qed.

Lemma scaled_length (lg sq : Q -> Q) (dbscale : bool) (s : matrix) (f : list Q) :
  length (fst (amplitude_transform lg sq dbscale s f)) = (length s - 1)%nat.
Proof.
  unfold amplitude_transform. destruct dbscale; cbn [fst];
    rewrite length_map; destruct s; cbn; lia.
Qed.

(** C4, as the code has it. For 1000 samples at 100 Hz with [wlen] unset,
    [per_lap = 0.9] and [mult = 8.0]: [wlen = 1.0], [nfft =
    nearestPow2(100) = 128], [noverlap = 115] and the padding target is
    [8 * 128 = 1024]. With matplotlib >= 0.99 the estimator is called with
    [pad_to = 1024], so a one-sided spectrum has 513 rows before the
    zero-frequency row is dropped and 512 after; only without padding
    (older matplotlib) are there 65 and 64. *)
Theorem default_scenario (V : list Z)
    (sg : list Q -> Q -> Z -> option Z -> Z -> exn + spectrum) (lg sq : Q -> Q)
    (dbscale : bool) (data : list Q) :
  one_sided sg -> length data = 1000%nat ->
  let run := spectral_stage V sg data 100 (9 # 10) None (Some 8) in
  let padded := list_ge V [0; 99; 0]%Z in
  exists p d,
    window_plan 1000 100 (9 # 10) None (Some 8) = inr p /\
    wlen_used p == 1 /\ nearestPow2 (wlen_used p * 100) = Some 128 /\
    nfft p = 128%Z /\ nlap p = 115%Z /\ pad p = Some 1024%Z /\
    fst run = [specgram_call d 100 128 (if padded then Some 1024%Z else None) 115] /\
    (forall end_ s f t, snd run = inr (end_, (s, f, t)) ->
       raw_rows run = Some (if padded then 513 else 65)%nat /\
       scaled_rows lg sq dbscale run = Some (if padded then 512 else 64)%nat).
Proof.
  intros Hsg Hlen run padded.
  eexists. exists (map (fun v => v - fold_right Qplus 0 data / inject_Z 1000) data).
  split; [exact default_plan|].
  cbn [wlen_used nfft nlap pad].
  split; [reflexivity|]. split; [vm_compute; reflexivity|].
  do 3 (split; [reflexivity|]).
  assert (Hm : mean data = inr (fold_right Qplus 0 data / inject_Z 1000)).
  { destruct data as [|a l]; [discriminate|]. unfold mean. rewrite Hlen. reflexivity. }
  assert (Hrun : run =
    bind (emit (specgram_call
                  (map (fun v => v - fold_right Qplus 0 data / inject_Z 1000) data)
                  100 128 (if padded then Some 1024%Z else None) 115))
      (fun _ => bind (lift (sg (map (fun v => v - fold_right Qplus 0 data / inject_Z 1000) data)
                              100 128%Z (if padded then Some 1024%Z else None) 115%Z))
                  (fun raw => ret (inject_Z 1000 / 100, raw)))).
  { unfold run, spectral_stage. rewrite Hlen. change (Z.of_nat 1000) with 1000%Z.
    rewrite default_plan, Hm. reflexivity. }
  rewrite Hrun, bind_emit. clear Hrun. clearbody padded.
  destruct (sg _ 100 128%Z (if padded then Some 1024%Z else None) 115%Z)
    as [e|[[s0 f0] t0]] eqn:E.
  - split; [reflexivity|]. intros end_ s f t H. discriminate.
  - split; [reflexivity|]. intros end_ s f t H. cbn in H.
    injection H as _ <- <- <-.
    unfold raw_rows, scaled_rows. cbn [snd bind lift ret fst].
    rewrite scaled_length.
    assert (Hr : Z.of_nat (length s0) = (if padded then 513 else 65)%Z).
    { pose proof (fun H => Hsg _ _ _ _ _ _ _ _ H E) as Hrows.
      destruct padded; cbn in Hrows; rewrite Hrows by lia; reflexivity. }
    destruct padded; split; f_equal; lia.
Qed.

Lemma default_scenario_witness :
  let run := spectral_stage [1; 0; 0]%Z (Mlab.specgram Mlab.unit_power) (repeat 0 1000)
               100 (9 # 10) None (Some 8) in
  let padded := list_ge [1; 0; 0]%Z [0; 99; 0]%Z in
  exists p d,
    window_plan 1000 100 (9 # 10) None (Some 8) = inr p /\
    wlen_used p == 1 /\ nearestPow2 (wlen_used p * 100) = Some 128 /\
    nfft p = 128%Z /\ nlap p = 115%Z /\ pad p = Some 1024%Z /\
    fst run = [specgram_call d 100 128 (if padded then Some 1024%Z else None) 115] /\
    (forall end_ s f t, snd run = inr (end_, (s, f, t)) ->
       raw_rows run = Some (if padded then 513 else 65)%nat /\
       scaled_rows Mlab.stand_in Mlab.stand_in false run =
         Some (if padded then 512 else 64)%nat).
Proof.
  apply (default_scenario [1; 0; 0]%Z (Mlab.specgram Mlab.unit_power)
           Mlab.stand_in Mlab.stand_in false (repeat 0 1000)).
  - apply Mlab_one_sided.
  - reflexivity.
Defined.

(** C4, as the claim states it, fails: with matplotlib 1.0.0 the default
    run on 1000 samples at 100 Hz calls the estimator with
    [pad_to = 1024], and the spectrum has 513 rows before the
    zero-frequency row is dropped and 512 after, not 65 and 64. *)
Lemma default_run_has_513_rows :
  window_plan 1000 100 (9 # 10) None (Some 8) =
    inr {| wlen_used := 100 / 100; nfft := 128; pad := Some 1024%Z; nlap := 115 |} /\
  fst (spectral_stage [1; 0; 0]%Z (Mlab.specgram Mlab.unit_power) (repeat 0 1000)
         100 (9 # 10) None (Some 8)) =
    [specgram_call (map (fun v => v - 0 / 1000) (repeat 0 1000)) 100 128 (Some 1024%Z) 115] /\
  raw_rows (spectral_stage [1; 0; 0]%Z (Mlab.specgram Mlab.unit_power) (repeat 0 1000)
              100 (9 # 10) None (Some 8)) = Some 513%nat /\
  scaled_rows Mlab.stand_in Mlab.stand_in false
    (spectral_stage [1; 0; 0]%Z (Mlab.specgram Mlab.unit_power) (repeat 0 1000)
       100 (9 # 10) None (Some 8)) = Some 512%nat.
Proof. repeat split; vm_compute; reflexivity. Qed.

(** * Further properties of the code *)

(** *** nearestPow2: bounds, scaling and order *)

Lemma floor_log2_unique (x : Q) (k : Z) :
  0 < x -> pow2 k <= x -> x < pow2 (k + 1) -> floor_log2 x = k.
Proof.
  intros Hx Hlo Hhi. destruct (floor_log2_spec x Hx) as [Flo Fhi].
  assert (k < floor_log2 x + 1)%Z by (apply pow2_lt_inv; lra).
  assert (floor_log2 x < k + 1)%Z by (apply pow2_lt_inv; lra).
  lia.
Qed.

Lemma ceil_log2_unique (x : Q) (k : Z) :
  0 < x -> pow2 (k - 1) < x -> x <= pow2 k -> ceil_log2 x = k.
Proof.
  intros Hx Hlo Hhi. destruct (ceil_log2_spec x Hx) as [Clo Chi].
  assert (k - 1 < ceil_log2 x)%Z by (apply pow2_lt_inv; lra).
  assert (ceil_log2 x - 1 < k)%Z by (apply pow2_lt_inv; lra).
  lia.
Qed.

Lemma pow2_add (j k : Z) : pow2 (j + k) == pow2 j * pow2 k.
Proof. unfold pow2. apply Qpower_plus. discriminate. Qed.

Lemma pow2_succ (k : Z) : pow2 (k + 1) == 2 * pow2 k.
Proof. rewrite pow2_add. change (pow2 1) with 2. ring. Qed.

Lemma ceil_pow_le_double_floor (x : Q) :
  0 < x -> pow2 (ceil_log2 x) <= 2 * pow2 (floor_log2 x).
Proof.
  intro Hx. rewrite <- pow2_succ. apply pow2_le. apply ceil_le_floor_succ. exact Hx.
Qed.

Lemma Qabs_cases (t : Q) : (0 <= t /\ Qabs t == t) \/ (t <= 0 /\ Qabs t == - t).
Proof.
  destruct (Qlt_le_dec t 0) as [H|H].
  - right. split; [lra | apply Qabs_neg; lra].
  - left. split; [exact H | apply Qabs_pos; exact H].
Qed.

Lemma nearestPow2_gap (x p : Q) :
  0 < x -> nearestPow2 x = Some p ->
  exists a b, b <= x /\ x <= a /\ a <= 2 * b /\
              ((p = a /\ a - x < x - b) \/ (p = b /\ x - b <= a - x)).
Proof.
  intros Hx E.
  destruct (floor_log2_spec x Hx) as [Hf _].
  destruct (ceil_log2_spec x Hx) as [_ Hc].
  pose proof (ceil_pow_le_double_floor x Hx) as Hd.
  exists (pow2 (ceil_log2 x)), (pow2 (floor_log2 x)).
  do 3 (split; [assumption|]).
  destruct (nearestPow2_cases x Hx) as [[E' H]|[E' H]];
    rewrite E' in E; injection E as <-;
    rewrite (dist_above x _ Hc), (dist_below x _ Hf) in H; [left | right]; auto.
Qed.

(** X1. The result of [nearestPow2] is within a third of its argument:
    [2x/3 <= nearestPow2(x) <= 4x/3]. *)
Theorem nearestPow2_within_third (x p : Q) :
  0 < x -> nearestPow2 x = Some p -> (2 # 3) * x <= p /\ p <= (4 # 3) * x.
Proof.
  intros Hx E.
  destruct (nearestPow2_gap x p Hx E) as (a & b & Hb & Ha & Hab & [[-> H]|[-> H]]);
    split; lra.
Qed.

Lemma nearestPow2_within_third_witness :
  (2 # 3) * 100 <= 128 /\ 128 <= (4 # 3) * 100.
Proof. apply (nearestPow2_within_third 100 128); reflexivity. Defined.

(** X2. [nearestPow2] commutes with scaling by a power of two:
    [nearestPow2(2^j * x) = 2^j * nearestPow2(x)]. *)
Theorem nearestPow2_scale (x p : Q) (j : Z) :
  0 < x -> nearestPow2 x = Some p ->
  exists q, nearestPow2 (pow2 j * x) = Some q /\ q == pow2 j * p.
Proof.
  intros Hx E.
  pose proof (pow2_pos j) as Hj.
  assert (Hx' : 0 < pow2 j * x) by nra.
  destruct (floor_log2_spec x Hx) as [Flo Fhi].
  destruct (ceil_log2_spec x Hx) as [Clo Chi].
  assert (Ef : floor_log2 (pow2 j * x) = (j + floor_log2 x)%Z).
  { apply floor_log2_unique; [exact Hx' | |].
    - rewrite pow2_add. nra.
    - replace (j + floor_log2 x + 1)%Z with (j + (floor_log2 x + 1))%Z by lia.
      rewrite pow2_add. nra. }
  assert (Ec : ceil_log2 (pow2 j * x) = (j + ceil_log2 x)%Z).
  { apply ceil_log2_unique; [exact Hx' | |].
    - replace (j + ceil_log2 x - 1)%Z with (j + (ceil_log2 x - 1))%Z by lia.
      rewrite pow2_add. nra.
    - rewrite pow2_add. nra. }
  assert (Da : Qabs (pow2 (j + ceil_log2 x) - pow2 j * x) ==
               pow2 j * Qabs (pow2 (ceil_log2 x) - x)).
  { rewrite (dist_above x _ Chi).
    rewrite dist_above by (rewrite pow2_add; nra).
    rewrite pow2_add. ring. }
  assert (Db : Qabs (pow2 (j + floor_log2 x) - pow2 j * x) ==
               pow2 j * Qabs (pow2 (floor_log2 x) - x)).
  { rewrite (dist_below x _ Flo).
    rewrite dist_below by (rewrite pow2_add; nra).
    rewrite pow2_add. ring. }
  destruct (nearestPow2_cases _ Hx') as [[E2 H2]|[E2 H2]];
    rewrite ?Ef, ?Ec in E2; rewrite Ef, Ec in H2; rewrite Da, Db in H2;
    destruct (nearestPow2_cases x Hx) as [[E1 H1]|[E1 H1]];
    rewrite E1 in E; injection E as <-;
    eexists; (split; [exact E2|]); first [apply pow2_add | exfalso; nra].
Qed.

Lemma nearestPow2_scale_witness :
  exists q, nearestPow2 (pow2 3 * 3) = Some q /\ q == pow2 3 * 2.
Proof. apply (nearestPow2_scale 3 2 3); reflexivity. Defined.

(** X3. [nearestPow2] is monotone: a larger argument never gives a
    smaller power of two. *)
Theorem nearestPow2_monotone (x y p q : Q) :
  0 < x -> x <= y -> nearestPow2 x = Some p -> nearestPow2 y = Some q -> p <= q.
Proof.
  intros Hx Hxy Ex Ey.
  assert (Hy : 0 < y) by lra.
  destruct (Qlt_le_dec q p) as [Hlt|Hle]; [exfalso | exact Hle].
  assert (Hp : exists i, p = pow2 i)
    by (destruct (nearestPow2_is_pow2 x p Ex) as [->| ->]; eauto).
  assert (Hq : exists j, q = pow2 j)
    by (destruct (nearestPow2_is_pow2 y q Ey) as [->| ->]; eauto).
  destruct Hp as [i Hp]. destruct Hq as [j Hq].
  pose proof (nearestPow2_minimal x p j Hx Ex) as Mx.
  pose proof (nearestPow2_minimal y q i Hy Ey) as My.
  rewrite <- Hq in Mx. rewrite <- Hp in My.
  assert (T : Qabs (pow2 j - x) == Qabs (p - x)).
  { rewrite <- Hq.
    destruct (Qabs_cases (p - x)) as [[? Apx]|[? Apx]];
      destruct (Qabs_cases (q - x)) as [[? Aqx]|[? Aqx]];
      destruct (Qabs_cases (p - y)) as [[? Apy]|[? Apy]];
      destruct (Qabs_cases (q - y)) as [[? Aqy]|[? Aqy]];
      rewrite Apx, Aqx in *; rewrite Apy, Aqy in My; lra. }
  pose proof (nearestPow2_tie_low x p j Hx Ex T) as Hlow.
  rewrite <- Hq in Hlow. lra.
Qed.

Lemma nearestPow2_monotone_witness : 2 <= 4.
Proof. apply (nearestPow2_monotone 3 (7 # 2) 2 4); [lra | lra | reflexivity | reflexivity]. Defined.

(** X4. A power of two is a fixed point, so rounding twice is rounding
    once: [nearestPow2(nearestPow2(x)) = nearestPow2(x)]. *)
Theorem nearestPow2_idempotent (x p : Q) :
  nearestPow2 x = Some p -> nearestPow2 p = Some p.
Proof.
  intro E.
  assert (Hk : exists k, p = pow2 k)
    by (destruct (nearestPow2_is_pow2 x p E) as [->| ->]; eauto).
  destruct Hk as [k ->].
  pose proof (pow2_pos k) as Hpos.
  assert (Ef : floor_log2 (pow2 k) = k).
  { apply floor_log2_unique; [exact Hpos | lra | apply pow2_lt; lia]. }
  assert (Ec : ceil_log2 (pow2 k) = k).
  { apply ceil_log2_unique; [exact Hpos | apply pow2_lt; lia | lra]. }
  destruct (nearestPow2_cases (pow2 k) Hpos) as [[E' _]|[E' _]];
    rewrite E'; rewrite ?Ef, ?Ec; reflexivity.
Qed.

Lemma nearestPow2_idempotent_witness : nearestPow2 16 = Some 16.
Proof. apply (nearestPow2_idempotent 15 16). reflexivity. Defined.

(** *** The segmentation plan: window, overlap and padding *)

Lemma int_inject (p : Q) (z : Z) : (0 <= z)%Z -> p == inject_Z z -> int p = z.
Proof.
  intros Hz E.
  assert (H0 : 0 <= p) by (rewrite E; change 0 with (inject_Z 0); apply inject_Z_le; exact Hz).
  rewrite int_floor by exact H0. rewrite E. apply Qfloor_Z.
Qed.

Lemma int_small (p : Q) : 0 <= p -> p < 1 -> int p = 0%Z.
Proof.
  intros H0 H1. rewrite int_floor by exact H0.
  pose proof (Qfloor_le p) as Hl. pose proof (Qlt_floor p) as Hu.
  assert (A : (Qfloor p < 1)%Z) by (rewrite Zlt_Qlt; change (inject_Z 1) with 1; lra).
  assert (B : (0 < Qfloor p + 1)%Z) by (rewrite Zlt_Qlt; change (inject_Z 0) with 0; lra).
  lia.
Qed.

Lemma int_pow2 (k : Z) : int (pow2 k) = if (k <? 0)%Z then 0%Z else (2 ^ k)%Z.
Proof.
  destruct (Z.ltb_spec k 0) as [H|H].
  - apply int_small; [apply Qlt_le_weak, pow2_pos|].
    change 1 with (pow2 0). apply pow2_lt. exact H.
  - apply int_inject; [apply Z.pow_nonneg; lia | apply pow2_inject; exact H].
Qed.

Lemma int_nearestPow2 (x p : Q) :
  nearestPow2 x = Some p -> int p = 0%Z \/ exists k, (0 <= k)%Z /\ int p = (2 ^ k)%Z.
Proof.
  intro E.
  assert (Hk : exists k, p = pow2 k)
    by (destruct (nearestPow2_is_pow2 x p E) as [->| ->]; eauto).
  destruct Hk as [k ->]. rewrite int_pow2.
  destruct (Z.ltb_spec k 0); [left; reflexivity | right; eauto].
Qed.

Lemma select_nfft_shape (npts : Z) (wlen samp_rate : Q) (n : Z) :
  select_nfft npts wlen samp_rate = inr n ->
  n = 0%Z \/ exists k, (0 <= k)%Z /\ n = (2 ^ k)%Z.
Proof.
  unfold select_nfft.
  destruct (nearestPow2 (wlen * samp_rate)) as [p0|] eqn:E0; [|discriminate].
  destruct (int p0 >? npts)%Z.
  - destruct (nearestPow2 (inject_Z npts / 8)) as [p8|] eqn:E8; [|discriminate].
    intro H. injection H as <-. apply (int_nearestPow2 _ _ E8).
  - intro H. injection H as <-. apply (int_nearestPow2 _ _ E0).
Qed.

Lemma window_plan_nlap (npts : Z) (samp_rate per_lap : Q) (wlen mult : option Q) (p : plan) :
  window_plan npts samp_rate per_lap wlen mult = inr p ->
  nlap p = int (inject_Z (nfft p) * per_lap).
Proof.
  unfold window_plan.
  destruct (select_nfft npts _ samp_rate) as [e|n]; cbn [ebind]; [discriminate|].
  destruct mult as [m|]; [destruct (nearestPow2 m)|]; cbn [ebind];
    intro H; try discriminate; injection H as <-; reflexivity.
Qed.

Lemma window_plan_nfft_nonneg (npts : Z) (samp_rate per_lap : Q)
    (wlen mult : option Q) (p : plan) :
  window_plan npts samp_rate per_lap wlen mult = inr p -> (0 <= nfft p)%Z.
Proof.
  intro H. destruct (window_plan_nfft _ _ _ _ _ _ H) as (w & Hw & _).
  destruct (select_nfft_shape _ _ _ _ Hw) as [->|(k & Hk & ->)];
    [lia | apply Z.pow_nonneg; lia].
Qed.

(** X5. The planned FFT length is zero or a power of two: [int()]
    truncates a rounded length below one to zero. *)
Theorem plan_nfft_zero_or_pow2 (npts : Z) (samp_rate per_lap : Q)
    (wlen mult : option Q) (p : plan) :
  window_plan npts samp_rate per_lap wlen mult = inr p ->
  nfft p = 0%Z \/ exists k, (0 <= k)%Z /\ nfft p = (2 ^ k)%Z.
Proof.
  intro H. destruct (window_plan_nfft _ _ _ _ _ _ H) as (w & Hw & _).
  apply (select_nfft_shape _ _ _ _ Hw).
Qed.

Lemma plan_nfft_zero_or_pow2_witness :
  128%Z = 0%Z \/ exists k, (0 <= k)%Z /\ 128%Z = (2 ^ k)%Z.
Proof.
  apply (plan_nfft_zero_or_pow2 1000 100 (9 # 10) None (Some 8)
           {| wlen_used := 100 / 100; nfft := 128; pad := Some 1024%Z; nlap := 115 |}).
  vm_compute. reflexivity.
Defined.

(** X6. For an overlap fraction in [[0, 1)] the overlap is a proper part
    of the window: [0 <= nlap <= nfft], and [nlap < nfft] unless
    [nfft = 0], so the step [nfft - nlap] of a non-empty window is
    positive. *)
Theorem plan_overlap_bounds (npts : Z) (samp_rate per_lap : Q)
    (wlen mult : option Q) (p : plan) :
  window_plan npts samp_rate per_lap wlen mult = inr p ->
  0 <= per_lap -> per_lap < 1 ->
  (0 <= nlap p)%Z /\ (nlap p <= nfft p)%Z /\ (1 <= nfft p -> nlap p < nfft p)%Z.
Proof.
  intros H H0 H1.
  pose proof (window_plan_nlap _ _ _ _ _ _ H) as En.
  pose proof (window_plan_nfft_nonneg _ _ _ _ _ _ H) as Hn.
  assert (Hq : 0 <= inject_Z (nfft p))
    by (change 0 with (inject_Z 0); apply inject_Z_le; exact Hn).
  assert (Hprod : 0 <= inject_Z (nfft p) * per_lap) by nra.
  pose proof (int_le _ Hprod) as Hle.
  rewrite int_floor in Hle by exact Hprod.
  rewrite En, int_floor by exact Hprod.
  split.
  { change 0%Z with (Qfloor 0). apply Qfloor_resp_le. exact Hprod. }
  split.
  - rewrite Zle_Qle. nra.
  - intro Hpos. rewrite Zlt_Qlt.
    assert (1 <= inject_Z (nfft p))
      by (change 1 with (inject_Z 1); apply inject_Z_le; exact Hpos).
    nra.
Qed.

Lemma plan_overlap_bounds_witness :
  (0 <= 115)%Z /\ (115 <= 128)%Z /\ (1 <= 128 -> 115 < 128)%Z.
Proof.
  apply (plan_overlap_bounds 1000 100 (9 # 10) None (Some 8)
           {| wlen_used := 100 / 100; nfft := 128; pad := Some 1024%Z; nlap := 115 |}).
  - vm_compute. reflexivity.
  - lra.
  - lra.
Defined.

Lemma window_plan_select (npts : Z) (samp_rate per_lap : Q) (wlen mult : option Q) (p : plan) :
  window_plan npts samp_rate per_lap wlen mult = inr p ->
  select_nfft npts (wlen_used p) samp_rate = inr (nfft p).
Proof.
  intro H. destruct (window_plan_nfft _ _ _ _ _ _ H) as (w & Hw & ->). exact Hw.
Qed.

Lemma select_nfft_fallback (npts : Z) (wlen samp_rate p0 p8 : Q) :
  nearestPow2 (wlen * samp_rate) = Some p0 -> (int p0 > npts)%Z ->
  nearestPow2 (inject_Z npts / 8) = Some p8 ->
  select_nfft npts wlen samp_rate = inr (int p8).
Proof.
  intros E0 G E8. unfold select_nfft. rewrite E0, E8.
  apply Z.gtb_gt in G. rewrite G. reflexivity.
Qed.

(** X7. When the requested window is longer than a signal of at least 7
    samples, the fallback window is a power of two between a twelfth and
    a sixth of the signal: [1 <= nfft], [6 * nfft <= npts <= 12 * nfft]. *)
Theorem fallback_window_size (npts : Z) (samp_rate per_lap : Q)
    (wlen mult : option Q) (p : plan) (p0 : Q) :
  (7 <= npts)%Z ->
  window_plan npts samp_rate per_lap wlen mult = inr p ->
  nearestPow2 (wlen_used p * samp_rate) = Some p0 -> (int p0 > npts)%Z ->
  (1 <= nfft p)%Z /\ (6 * nfft p <= npts)%Z /\ (npts <= 12 * nfft p)%Z /\
  exists k, (0 <= k)%Z /\ nfft p = (2 ^ k)%Z.
Proof.
  intros Hn Hp E0 G.
  assert (H1 : (1 <= npts)%Z) by lia.
  destruct (fallback_bounded npts H1) as (p8 & E8 & _).
  pose proof (window_plan_select _ _ _ _ _ _ Hp) as Hs.
  rewrite (select_nfft_fallback _ _ _ _ _ E0 G E8) in Hs. injection Hs as Hs.
  assert (Lo : (2 # 3) * (inject_Z npts / 8) <= p8 /\ p8 <= (4 # 3) * (inject_Z npts / 8)).
  { destruct (nearestPow2_gap _ _ (eighth_pos npts H1) E8)
      as (a & b & Hb & Ha & Hab & [[-> H]|[-> H]]); split; lra. }
  destruct Lo as [Lo Hi].
  assert (Hq : 7 <= inject_Z npts)
    by (change 7 with (inject_Z 7); apply inject_Z_le; exact Hn).
  assert (Hk : exists k, p8 = pow2 k)
    by (destruct (nearestPow2_is_pow2 _ _ E8) as [->| ->]; eauto).
  destruct Hk as [k ->].
  assert (Hk0 : (0 <= k)%Z).
  { assert (pow2 (-1) < pow2 k).
    { change (pow2 (-1)) with (1 # 2).
      assert (inject_Z npts / 8 == inject_Z npts * (1 # 8)) by field. lra. }
    apply pow2_lt_inv in H. lia. }
  rewrite int_pow2 in Hs. destruct (Z.ltb_spec k 0) as [?|_]; [lia|].
  rewrite <- Hs. rewrite (pow2_inject k Hk0) in Lo, Hi.
  assert (Hd : inject_Z npts / 8 == inject_Z npts * (1 # 8)) by field.
  rewrite Hd in Lo, Hi.
  split; [assert (0 < 2 ^ k)%Z by (apply Z.pow_pos_nonneg; lia); lia|].
  split; [|split].
  - rewrite Zle_Qle, inject_Z_mult. change (inject_Z 6) with 6. lra.
  - rewrite Zle_Qle, inject_Z_mult. change (inject_Z 12) with 12. lra.
  - exists k. split; [exact Hk0 | reflexivity].
Qed.

Lemma fallback_window_size_witness :
  (1 <= 16)%Z /\ (6 * 16 <= 100)%Z /\ (100 <= 12 * 16)%Z /\
  exists k, (0 <= k)%Z /\ 16%Z = (2 ^ k)%Z.
Proof.
  apply (fallback_window_size 100 100 (9 # 10) (Some 5) (Some 8)
           {| wlen_used := 5; nfft := 16; pad := Some 128%Z; nlap := 14 |} 512).
  - lia.
  - vm_compute. reflexivity.
  - vm_compute. reflexivity.
  - reflexivity.
Defined.

Lemma window_plan_pad (npts : Z) (samp_rate per_lap : Q) (wlen mult : option Q) (p : plan) :
  window_plan npts samp_rate per_lap wlen mult = inr p ->
  match mult with
  | None => pad p = None
  | Some m => exists pm, nearestPow2 m = Some pm /\ pad p = Some (int pm * nfft p)%Z
  end.
Proof.
  unfold window_plan.
  destruct (select_nfft npts _ samp_rate) as [e|n]; cbn [ebind]; [discriminate|].
  destruct mult as [m|]; [destruct (nearestPow2 m) as [pm|]|]; cbn [ebind];
    intro H; try discriminate; injection H as <-; cbn; eauto.
Qed.

Lemma int_zero_mul (q : Q) : int (inject_Z 0 * q) = 0%Z.
Proof. destruct q as [n d]. reflexivity. Qed.

(** X8. A signal of 1 to 6 samples that is shorter than the requested
    window gets a window of length zero: [nfft = 0], [nlap = 0], and a
    padding target of 0 when [mult] is given. *)
Theorem short_signal_zero_window (npts : Z) (samp_rate per_lap : Q)
    (wlen mult : option Q) (p : plan) (p0 : Q) :
  (1 <= npts <= 6)%Z ->
  window_plan npts samp_rate per_lap wlen mult = inr p ->
  nearestPow2 (wlen_used p * samp_rate) = Some p0 -> (int p0 > npts)%Z ->
  nfft p = 0%Z /\ nlap p = 0%Z /\
  pad p = match mult with None => None | Some _ => Some 0%Z end.
Proof.
  intros Hn Hp E0 G.
  assert (E8 : exists p8, nearestPow2 (inject_Z npts / 8) = Some p8 /\ int p8 = 0%Z).
  { assert (C : (npts = 1 \/ npts = 2 \/ npts = 3 \/ npts = 4 \/ npts = 5 \/ npts = 6)%Z)
      by lia.
    destruct C as [->|[->|[->|[->|[->| ->]]]]]; eexists; split;
      try (vm_compute; reflexivity); reflexivity. }
  destruct E8 as (p8 & E8 & Hz).
  pose proof (window_plan_select _ _ _ _ _ _ Hp) as Hs.
  rewrite (select_nfft_fallback _ _ _ _ _ E0 G E8), Hz in Hs. injection Hs as Hs.
  split; [symmetry; exact Hs|].
  split.
  - rewrite (window_plan_nlap _ _ _ _ _ _ Hp), <- Hs. apply int_zero_mul.
  - pose proof (window_plan_pad _ _ _ _ _ _ Hp) as Hpad.
    destruct mult as [m|]; [|exact Hpad].
    destruct Hpad as (pm & _ & ->). rewrite <- Hs, Z.mul_0_r. reflexivity.
Qed.

Lemma short_signal_zero_window_witness :
  0%Z = 0%Z /\ 0%Z = 0%Z /\ Some 0%Z = Some 0%Z.
Proof.
  apply (short_signal_zero_window 5 100 (9 # 10) None (Some 8)
           {| wlen_used := 100 / 100; nfft := 0; pad := Some 0%Z; nlap := 0 |} 128).
  - lia.
  - vm_compute. reflexivity.
  - vm_compute. reflexivity.
  - reflexivity.
Defined.



(** X10. With a matplotlib older than 0.99.0 the padding multiplier has
    no effect: for any positive [mult] the estimator call and the whole
    run are those of [mult = None]. *)
Theorem old_matplotlib_ignores_mult (V : list Z)
    (sg : list Q -> Q -> Z -> option Z -> Z -> exn + spectrum) (lg sq : Q -> Q)
    (data : list Q) (fs per_lap m : Q) (wlen : option Q)
    (log axes dbscale : bool) (clip : Q * Q) :
  list_ge V [0; 99; 0]%Z = false -> 0 < m ->
  spectral_stage V sg data fs per_lap wlen (Some m) =
  spectral_stage V sg data fs per_lap wlen None /\
  spectrogram V sg lg sq data fs per_lap wlen log axes dbscale (Some m) clip =
  spectrogram V sg lg sq data fs per_lap wlen log axes dbscale None clip.
Proof.
  intros HV Hm.
  assert (E : spectral_stage V sg data fs per_lap wlen (Some m) =
              spectral_stage V sg data fs per_lap wlen None).
  { unfold spectral_stage, window_plan. rewrite HV.
    destruct (select_nfft _ _ fs) as [e|n]; cbn [ebind]; [reflexivity|].
    destruct (nearestPow2_defined m Hm) as [pm ->]. cbn [ebind]. reflexivity. }
  split; [exact E|]. unfold spectrogram. rewrite E. reflexivity.
Qed.

Lemma old_matplotlib_ignores_mult_witness :
  spectral_stage [0; 98; 5]%Z (Mlab.specgram Mlab.unit_power)
    [1; 2; 3; 4; 5; 6; 7; 8] 100 (9 # 10) (Some (4 # 100)) (Some 8) =
  spectral_stage [0; 98; 5]%Z (Mlab.specgram Mlab.unit_power)
    [1; 2; 3; 4; 5; 6; 7; 8] 100 (9 # 10) (Some (4 # 100)) None /\
  spectrogram [0; 98; 5]%Z (Mlab.specgram Mlab.unit_power) Mlab.stand_in Mlab.stand_in
    [1; 2; 3; 4; 5; 6; 7; 8] 100 (9 # 10) (Some (4 # 100)) true false false (Some 8) (0, 1) =
  spectrogram [0; 98; 5]%Z (Mlab.specgram Mlab.unit_power) Mlab.stand_in Mlab.stand_in
    [1; 2; 3; 4; 5; 6; 7; 8] 100 (9 # 10) (Some (4 # 100)) true false false None (0, 1).
Proof.
  apply (old_matplotlib_ignores_mult [0; 98; 5]%Z (Mlab.specgram Mlab.unit_power)
           Mlab.stand_in Mlab.stand_in [1; 2; 3; 4; 5; 6; 7; 8] 100 (9 # 10) 8
           (Some (4 # 100)) true false false (0, 1)).
  - reflexivity.
  - reflexivity.
Defined.

(** *** The colour scale *)

Lemma fold_max_ge (l : list Q) (q : Q) :
  q <= fold_left Qmax l q /\ Forall (fun v => v <= fold_left Qmax l q) l.
Proof.
  revert q. induction l as [|a l IH]; intro q; cbn [fold_left].
  - split; [lra | constructor].
  - destruct (IH (Qmax q a)) as [H1 H2].
    pose proof (Q.le_max_l q a). pose proof (Q.le_max_r q a).
    split; [lra|]. constructor; [lra | exact H2].
Qed.

Lemma fold_min_le (l : list Q) (q : Q) :
  fold_left Qmin l q <= q /\ Forall (fun v => fold_left Qmin l q <= v) l.
Proof.
  revert q. induction l as [|a l IH]; intro q; cbn [fold_left].
  - split; [lra | constructor].
  - destruct (IH (Qmin q a)) as [H1 H2].
    pose proof (Q.le_min_l q a). pose proof (Q.le_min_r q a).
    split; [lra|]. constructor; [lra | exact H2].
Qed.

Lemma array_bounds (a : matrix) :
  concat a <> [] ->
  exists smin smax,
    array_min a = inr smin /\ array_max a = inr smax /\ smin <= smax /\
    Forall (fun v => smin <= v /\ v <= smax) (concat a).
Proof.
  intro Hne. unfold array_min, array_max.
  destruct (concat a) as [|q l]; [congruence|].
  destruct (fold_max_ge l q) as [M1 M2]. destruct (fold_min_le l q) as [m1 m2].
  exists (fold_left Qmin l q), (fold_left Qmax l q).
  split; [reflexivity|]. split; [reflexivity|]. split; [lra|].
  constructor; [split; assumption|].
  rewrite Forall_forall in *. intros v Hv. split; [apply m2 | apply M2]; exact Hv.
Qed.

Lemma fold_max_in (l : list Q) (q : Q) : In (fold_left Qmax l q) (q :: l).
Proof.
  revert q. induction l as [|a l IH]; intro q; cbn [fold_left].
  - left. reflexivity.
  - destruct (IH (Qmax q a)) as [E|E]; [|right; right; exact E].
    rewrite <- E. unfold Qmax, GenericMinMax.gmax. destruct (q ?= a); cbn; auto.
Qed.

Lemma fold_min_in (l : list Q) (q : Q) : In (fold_left Qmin l q) (q :: l).
Proof.
  revert q. induction l as [|a l IH]; intro q; cbn [fold_left].
  - left. reflexivity.
  - destruct (IH (Qmin q a)) as [E|E]; [|right; right; exact E].
    rewrite <- E. unfold Qmin, GenericMinMax.gmin. destruct (q ?= a); cbn; auto.
Qed.

Lemma array_attained (a : matrix) (smin smax : Q) :
  array_min a = inr smin -> array_max a = inr smax ->
  In smin (concat a) /\ In smax (concat a).
Proof.
  unfold array_min, array_max. destruct (concat a) as [|q l]; [discriminate|].
  intros Emin Emax. injection Emin as <-. injection Emax as <-.
  split; [apply fold_min_in | apply fold_max_in].
Qed.

(** X12. For a valid clip pair and a non-empty spectrum of finite values
    the colour scale starts inside the value range and is ordered:
    [min <= vmin <= vmax], where [min] and [max] bound every entry; a
    lower clip fraction of 0 gives [vmin = min], and a constant spectrum
    gives [vmin = vmax = min]. *)
Theorem color_scale_within_range (spectrogram : matrix) (lowFrac highFrac : Q) :
  clip_invalid (lowFrac, highFrac) = false -> concat spectrogram <> [] ->
  exists smin smax vmin vmax,
    array_min spectrogram = inr smin /\ array_max spectrogram = inr smax /\
    Forall (fun v => smin <= v /\ v <= smax) (concat spectrogram) /\
    In smin (concat spectrogram) /\ In smax (concat spectrogram) /\
    color_normalizer spectrogram (lowFrac, highFrac) = inr (vmin, vmax) /\
    smin <= vmin /\ vmin <= vmax /\
    (lowFrac == 0 -> vmin == smin) /\
    (smin == smax -> vmin == smin /\ vmax == smin).
Proof.
  intros Hc Hne.
  destruct (array_bounds spectrogram Hne) as (smin & smax & Emin & Emax & Hle & Hall).
  destruct (array_attained spectrogram smin smax Emin Emax) as [Imin Imax].
  assert (Hv : 0 <= lowFrac /\ lowFrac < highFrac /\ highFrac <= 1).
  { assert (N : ~ (lowFrac < 0 \/ 1 < highFrac \/ highFrac <= lowFrac)).
    { rewrite <- clip_invalid_iff. congruence. }
    destruct (Qlt_le_dec lowFrac 0); [tauto|].
    destruct (Qlt_le_dec lowFrac highFrac); [|tauto].
    destruct (Qlt_le_dec 1 highFrac); tauto. }
  destruct Hv as (H0 & Hlt & H1).
  exists smin, smax, (smin + lowFrac * (smax - smin)), (smin + highFrac * (smax - smin)).
  split; [exact Emin|]. split; [exact Emax|]. split; [exact Hall|].
  split; [exact Imin|]. split; [exact Imax|].
  split.
  { unfold color_normalizer. rewrite Hc, Emax, Emin. reflexivity. }
  assert (Hr : 0 <= smax - smin) by lra.
  split; [nra|]. split; [nra|].
  split; [intro E; rewrite E; ring|].
  intro E. split; rewrite E; ring.
Qed.

Lemma color_scale_within_range_witness :
  exists smin smax vmin vmax,
    array_min [[1; 5]; [3; 2]] = inr smin /\ array_max [[1; 5]; [3; 2]] = inr smax /\
    Forall (fun v => smin <= v /\ v <= smax) (concat [[1; 5]; [3; 2]]) /\
    In smin (concat [[1; 5]; [3; 2]]) /\ In smax (concat [[1; 5]; [3; 2]]) /\
    color_normalizer [[1; 5]; [3; 2]] (1 # 10, 9 # 10) = inr (vmin, vmax) /\
    smin <= vmin /\ vmin <= vmax /\
    ((1 # 10) == 0 -> vmin == smin) /\
    (smin == smax -> vmin == smin /\ vmax == smin).
Proof.
  apply (color_scale_within_range [[1; 5]; [3; 2]] (1 # 10) (9 # 10)).
  - reflexivity.
  - discriminate.
Defined.

(** *** Linear mode and the bin edges *)

Lemma ascending_bounds (v : list Q) :
  ascending v -> Forall (fun x => nth 0 v 0 <= x /\ x <= last v 0) v.
Proof.
  unfold ascending. induction 1 as [|a l Hs IH Hd].
  - constructor.
  - destruct l as [|b l'].
    + constructor; [cbn; lra | constructor].
    + inversion Hd; subst.
      change (last (a :: b :: l') 0) with (last (b :: l') 0).
      cbn [nth] in *.
      assert (Hb : b <= last (b :: l') 0).
      { inversion IH; subst. tauto. }
      constructor; [lra|].
      rewrite Forall_forall in *. intros x Hx. specialize (IH x Hx). lra.
Qed.

Lemma extent_ok (time freq : list Q) (ht hf : Q) :
  time <> [] -> freq <> [] ->
  extent time freq ht hf =
  inr (nth 0 time 0 - ht, last time 0 + ht, nth 0 freq 0 - hf, last freq 0 + hf).
Proof.
  intros Nt Nf. unfold extent.
  assert (T0 : getitem time 0 = inr (nth 0 time 0))
    by (apply (getitem_nat time 0); destruct time; [congruence | cbn; lia]).
  assert (F0 : getitem freq 0 = inr (nth 0 freq 0))
    by (apply (getitem_nat freq 0); destruct freq; [congruence | cbn; lia]).
  rewrite T0, (getitem_last time Nt), F0, (getitem_last freq Nf). reflexivity.
Qed.

Lemma two_nonempty (v : list Q) : (2 <= length v)%nat -> v <> [].
Proof. destruct v; [cbn; lia | discriminate]. Qed.

(** X13. In linear mode, for strictly ascending axes with at least two
    bins each, the half-bin widths are [ht = (time[1] - time[0]) / 2] and
    [hf = (freq[1] - freq[0]) / 2], both positive, and the only drawing
    call is the image of the vertically flipped grid with the extent
    [(time[0] - ht, time[-1] + ht, freq[0] - hf, freq[-1] + hf)]; the
    extent is not degenerate and every time and frequency value lies
    within it. *)
Theorem linear_extent_encloses_bins (V : list Z) (time freq : list Q)
    (spectrogram : matrix) (norm : Q * Q) :
  (2 <= length time)%nat -> (2 <= length freq)%nat ->
  ascending time -> ascending freq ->
  let ht := (nth 1 time 0 - nth 0 time 0) / 2 in
  let hf := (nth 1 freq 0 - nth 0 freq 0) / 2 in
  let tmin := nth 0 time 0 - ht in
  let tmax := last time 0 + ht in
  let fmin := nth 0 freq 0 - hf in
  let fmax := last freq 0 + hf in
  halfbin time = inr ht /\ halfbin freq = inr hf /\ 0 < ht /\ 0 < hf /\
  extent time freq ht hf = inr (tmin, tmax, fmin, fmax) /\
  tmin < tmax /\ fmin < fmax /\
  Forall (fun t => tmin <= t /\ t <= tmax) time /\
  Forall (fun f => fmin <= f /\ f <= fmax) freq /\
  axis_binner V false time freq spectrogram norm =
    ([imshow_call (rev spectrogram) (tmin, tmax, fmin, fmax)], inr tt).
Proof.
  intros Ht Hf At Af ht hf tmin tmax fmin fmax.
  pose proof (halfbin_two time Ht) as Eht. pose proof (halfbin_two freq Hf) as Ehf.
  pose proof (halfbin_pos time Ht At) as Pt. pose proof (halfbin_pos freq Hf Af) as Pf.
  fold ht in Eht, Pt. fold hf in Ehf, Pf.
  pose proof (two_nonempty _ Ht) as Nt. pose proof (two_nonempty _ Hf) as Nf.
  pose proof (extent_ok time freq ht hf Nt Nf) as Ex.
  pose proof (ascending_bounds time At) as Bt.
  pose proof (ascending_bounds freq Af) as Bf.
  assert (Lt : nth 0 time 0 <= last time 0).
  { rewrite Forall_forall in Bt. destruct time as [|a l]; [congruence|].
    destruct (Bt a (or_introl eq_refl)) as [_ H]. exact H. }
  assert (Lf : nth 0 freq 0 <= last freq 0).
  { rewrite Forall_forall in Bf. destruct freq as [|a l]; [congruence|].
    destruct (Bf a (or_introl eq_refl)) as [_ H]. exact H. }
  split; [exact Eht|]. split; [exact Ehf|]. split; [exact Pt|]. split; [exact Pf|].
  split; [exact Ex|].
  split; [unfold tmin, tmax; lra|]. split; [unfold fmin, fmax; lra|].
  split.
  { rewrite Forall_forall in *. intros x Hx. specialize (Bt x Hx).
    unfold tmin, tmax. lra. }
  split.
  { rewrite Forall_forall in *. intros x Hx. specialize (Bf x Hx).
    unfold fmin, fmax. lra. }
  unfold axis_binner. rewrite Eht, Ehf. cbn [lift bind fst snd app].
  rewrite Ex. reflexivity.
Qed.

Lemma linear_extent_encloses_bins_witness :
  let ht := (nth 1 [1; 2] 0 - nth 0 [1; 2] 0) / 2 in
  let hf := (nth 1 [10; 20; 30] 0 - nth 0 [10; 20; 30] 0) / 2 in
  let tmin := nth 0 [1; 2] 0 - ht in
  let tmax := last [1; 2] 0 + ht in
  let fmin := nth 0 [10; 20; 30] 0 - hf in
  let fmax := last [10; 20; 30] 0 + hf in
  halfbin [1; 2] = inr ht /\ halfbin [10; 20; 30] = inr hf /\ 0 < ht /\ 0 < hf /\
  extent [1; 2] [10; 20; 30] ht hf = inr (tmin, tmax, fmin, fmax) /\
  tmin < tmax /\ fmin < fmax /\
  Forall (fun t => tmin <= t /\ t <= tmax) [1; 2] /\
  Forall (fun f => fmin <= f /\ f <= fmax) [10; 20; 30] /\
  axis_binner [1; 0; 0]%Z false [1; 2] [10; 20; 30] [[1; 1]; [2; 2]; [3; 3]] (0, 1) =
    ([imshow_call (rev [[1; 1]; [2; 2]; [3; 3]]) (tmin, tmax, fmin, fmax)], inr tt).
Proof.
  apply (linear_extent_encloses_bins [1; 0; 0]%Z [1; 2] [10; 20; 30]
           [[1; 1]; [2; 2]; [3; 3]] (0, 1)).
  - cbn; lia.
  - cbn; lia.
  - unfold ascending. repeat constructor.
  - unfold ascending. repeat constructor.
Defined.

Lemma bin_edges_nonempty (v : list Q) (h : Q) :
  v <> [] -> bin_edges v h = inr (map (fun e => e - h) (v ++ [last v 0 + 2 * h])).
Proof. intro H. unfold bin_edges. rewrite (getitem_last v H). reflexivity. Qed.

(** *** Runs that reach the drawing *)

Lemma axis_binner_draws (V : list Z) (log : bool) (time freq : list Q)
    (spectrogram : matrix) (norm : Q * Q) :
  (2 <= length time)%nat -> (2 <= length freq)%nat ->
  exists draw,
    axis_binner V log time freq spectrogram norm = ([draw], inr tt) /\
    match draw with
    | imshow_call g _ => log = false /\ g = rev spectrogram
    | pcolormesh_call te fe g _ _ =>
        log = true /\ list_ge V [0; 98; 3]%Z = true /\ g = spectrogram /\
        length te = S (length time) /\ length fe = S (length freq)
    | pcolor_call te fe g _ _ =>
        log = true /\ list_ge V [0; 98; 3]%Z = false /\ g = spectrogram /\
        length te = S (length time) /\ length fe = S (length freq)
    | _ => False
    end.
Proof.
  intros Ht Hf.
  pose proof (two_nonempty _ Ht) as Nt. pose proof (two_nonempty _ Hf) as Nf.
  unfold axis_binner.
  rewrite (halfbin_two time Ht), (halfbin_two freq Hf). cbn [lift bind fst snd app].
  destruct log.
  - rewrite (bin_edges_nonempty freq _ Nf), (bin_edges_nonempty time _ Nt).
    cbn [lift bind fst snd app].
    destruct (list_ge V [0; 98; 3]%Z) eqn:G; eexists; (split; [reflexivity|]);
      cbn; rewrite !length_map, !length_app; cbn; repeat split; lia.
  - rewrite (extent_ok time freq _ _ Nt Nf). cbn [lift bind fst snd app].
    eexists. split; [reflexivity|]. cbn. auto.
Qed.

(** X16. When the clip pair is valid and the estimator returns a
    well-shaped spectrum with at least two time bins and at least two
    frequency bins after the zero-frequency row, lines 113-206 raise no
    exception: after the estimator call the figure is created (unless
    axes were given), exactly one drawing call is made (an image of the
    flipped scaled grid in linear mode, a mesh of the scaled grid with
    one more edge than bins on each axis in logarithmic mode) and the
    x-limits are set to [(0, npts / samp_rate)].  With given axes these
    are then returned (line 209); otherwise lines 211-230 follow. *)
Theorem spectrogram_reaches_set_xlim (V : list Z)
    (sg : list Q -> Q -> Z -> option Z -> Z -> exn + spectrum) (lg sq : Q -> Q)
    (data : list Q) (fs per_lap : Q) (wlen : option Q) (log axes dbscale : bool)
    (mult : option Q) (clip : Q * Q)
    (tr : list event) (end_ : Q) (s : matrix) (f t : list Q) :
  clip_invalid clip = false ->
  spectral_stage V sg data fs per_lap wlen mult = (tr, inr (end_, (s, f, t))) ->
  well_shaped (s, f, t) ->
  (2 <= length t)%nat -> (2 <= length (tl f))%nat ->
  exists draw h,
    spectrogram V sg lg sq data fs per_lap wlen log axes dbscale mult clip =
      (tr ++ (if axes then [] else [figure_call]) ++ [draw; set_xlim_call 0 end_],
       inr h) /\
    (axes = true -> h = ax) /\
    truediv (inject_Z (Z.of_nat (length data))) fs = inr end_ /\
    let scaled := fst (amplitude_transform lg sq dbscale s f) in
    match draw with
    | imshow_call g _ => log = false /\ g = rev scaled
    | pcolormesh_call te fe g _ _ =>
        log = true /\ list_ge V [0; 98; 3]%Z = true /\ g = scaled /\
        length te = S (length t) /\ length fe = length f
    | pcolor_call te fe g _ _ =>
        log = true /\ list_ge V [0; 98; 3]%Z = false /\ g = scaled /\
        length te = S (length t) /\ length fe = length f
    | _ => False
    end.
Proof.
  intros Hc Hs Hw Ht Hf.
  destruct (spectral_stage_inr _ _ _ _ _ _ _ _ _ Hs) as (p & m & _ & _ & Hend & _).
  cbn [fst] in Hend.
  set (scaled := fst (amplitude_transform lg sq dbscale s f)).
  assert (Hne : concat scaled <> []).
  { unfold scaled, amplitude_transform.
    destruct dbscale; cbn [fst]; apply (scaled_nonempty _ s f t); try assumption; lia. }
  destruct (array_bounds scaled Hne) as (smin & smax & Emin & Emax & _).
  destruct (axis_binner_draws V log t (tl f) scaled
              (smin + fst clip * (smax - smin), smin + snd clip * (smax - smin)) Ht Hf)
    as (draw & Ed & Hd).
  exists draw, (if axes then ax else fig).
  split; [|split; [|split; [exact Hend|]]].
  - rewrite (spectrogram_after_stage _ _ lg sq _ _ _ _ log axes dbscale _ clip _ _ Hs).
    cbn [fst snd]. unfold render_stage.
    replace (amplitude_transform lg sq dbscale s f) with (scaled, tl f)
      by (unfold scaled, amplitude_transform; destruct dbscale; reflexivity).
    unfold color_normalizer. destruct clip as [lo hi]. rewrite Hc, Emax, Emin.
    cbn [ebind lift bind fst snd app]. cbn [fst snd] in Ed. rewrite Ed.
    destruct axes; reflexivity.
  - intros ->. reflexivity.
  - cbv zeta. fold scaled.
    assert (Lf : S (length (tl f)) = length f) by (destruct f; cbn in *; lia).
    destruct draw; try exact Hd; rewrite <- Lf; exact Hd.
Qed.

Lemma spectrogram_reaches_set_xlim_witness :
  exists draw h,
    spectrogram [1; 0; 0]%Z (Mlab.specgram Mlab.unit_power) Mlab.stand_in Mlab.stand_in
      [1; 2; 3; 4; 5; 6; 7; 8] 100 (9 # 10) (Some (4 # 100)) true true false None (0, 1) =
      ([specgram_call (map (fun v => v - (36 # 8)) [1; 2; 3; 4; 5; 6; 7; 8]) 100 4 None 3] ++
         (if true then [] else [figure_call]) ++ [draw; set_xlim_call 0 (8 # 100)],
       inr h) /\
    (true = true -> h = ax) /\
    truediv (inject_Z (Z.of_nat (length [1; 2; 3; 4; 5; 6; 7; 8]))) 100 = inr (8 # 100) /\
    let scaled := fst (amplitude_transform Mlab.stand_in Mlab.stand_in false
                         (repeat (repeat 1 5) 3) [0 # 4; 100 # 4; 200 # 4]) in
    match draw with
    | imshow_call g _ => true = false /\ g = rev scaled
    | pcolormesh_call te fe g _ _ =>
        true = true /\ list_ge [1; 0; 0]%Z [0; 98; 3]%Z = true /\ g = scaled /\
        length te = 6%nat /\ length fe = 3%nat
    | pcolor_call te fe g _ _ =>
        true = true /\ list_ge [1; 0; 0]%Z [0; 98; 3]%Z = false /\ g = scaled /\
        length te = 6%nat /\ length fe = 3%nat
    | _ => False
    end.
Proof.
  apply (spectrogram_reaches_set_xlim [1; 0; 0]%Z (Mlab.specgram Mlab.unit_power)
           Mlab.stand_in Mlab.stand_in [1; 2; 3; 4; 5; 6; 7; 8] 100 (9 # 10)
           (Some (4 # 100)) true true false None (0, 1)
           [specgram_call (map (fun v => v - (36 # 8)) [1; 2; 3; 4; 5; 6; 7; 8]) 100 4 None 3]
           (8 # 100) (repeat (repeat 1 5) 3) [0 # 4; 100 # 4; 200 # 4]
           [4 # 200; 6 # 200; 8 # 200; 10 # 200; 12 # 200]).
  - reflexivity.
  - vm_compute. reflexivity.
  - split; [reflexivity | repeat constructor].
  - cbn; lia.
  - cbn; lia.
Defined.

Lemma list_ge_099_098 (V : list Z) :
  list_ge V [0; 99; 0]%Z = true -> list_ge V [0; 98; 3]%Z = true.
Proof.
  unfold list_ge. rewrite !negb_true_iff.
  destruct V as [|a [|b [|c l]]]; cbn [list_lt]; try discriminate;
    repeat match goal with
           | |- context [(?x <? ?y)%Z] => destruct (Z.ltb_spec x y)
           end; try discriminate; try reflexivity; try lia.
Qed.

(** X17. The two version gates are nested: a matplotlib that takes
    [pad_to] (>= 0.99.0) is past the pcolormesh fix (>= 0.98.3), so with
    such a version logarithmic mode never falls back to [pcolor]: its
    only drawing call, if any, is [pcolormesh]. *)
Theorem padding_versions_use_pcolormesh (V : list Z) (time freq : list Q)
    (spectrogram : matrix) (norm : Q * Q) :
  list_ge V [0; 99; 0]%Z = true ->
  list_ge V [0; 98; 3]%Z = true /\
  (fst (axis_binner V true time freq spectrogram norm) = [] \/
   exists timeEdges freqEdges,
     fst (axis_binner V true time freq spectrogram norm) =
     [pcolormesh_call timeEdges freqEdges spectrogram (fst norm) (snd norm)]).
Proof.
  intro H. pose proof (list_ge_099_098 V H) as G. split; [exact G|].
  unfold axis_binner. rewrite G.
  destruct (halfbin time) as [e|ht]; [left; reflexivity|].
  destruct (halfbin freq) as [e|hf]; [left; reflexivity|].
  cbn [lift bind fst snd app].
  destruct (bin_edges freq hf) as [e|fe]; [left; reflexivity|].
  destruct (bin_edges time ht) as [e|te]; [left; reflexivity|].
  right. exists te, fe. reflexivity.
Qed.

Lemma padding_versions_use_pcolormesh_witness :
  list_ge [1; 0; 0]%Z [0; 98; 3]%Z = true /\
  (fst (axis_binner [1; 0; 0]%Z true [1; 2] [10; 20; 30] [[1; 1]; [2; 2]; [3; 3]] (0, 1)) = [] \/
   exists timeEdges freqEdges,
     fst (axis_binner [1; 0; 0]%Z true [1; 2] [10; 20; 30] [[1; 1]; [2; 2]; [3; 3]] (0, 1)) =
     [pcolormesh_call timeEdges freqEdges [[1; 1]; [2; 2]; [3; 3]] (fst (0, 1)) (snd (0, 1))]).
Proof.
  apply (padding_versions_use_pcolormesh [1; 0; 0]%Z [1; 2] [10; 20; 30]
           [[1; 1]; [2; 2]; [3; 3]] (0, 1)).
  reflexivity.
Defined.

(** *** The end of a run *)

(** X18. After the drawing: with given axes nothing more happens and the
    axes are returned; otherwise the figure is saved exactly when
    [outfile] is a non-empty name (with [format] only when that is
    non-empty), shown exactly when there is no [outfile] and [show] is
    set, never both; every draw runs with all numpy warnings ignored and
    only when [sphinx] is off, and the numpy error settings are left as
    they were found. *)
Theorem finish_saves_or_shows (axes : bool) (title outfile format : option string)
    (show sphinx : bool) (err : errstate) :
  let events := fst (fst (finish axes title outfile format show sphinx err)) in
  snd (fst (finish axes title outfile format show sphinx err)) = err /\
  snd (finish axes title outfile format show sphinx err) = (if axes then ax else fig) /\
  (if axes then events = [] else True) /\
  (forall e, In (draw_call e) events <-> (e = all_ignore /\ axes = false /\ sphinx = false)) /\
  (forall o fm, In (savefig_call o fm) events <->
                (axes = false /\ truthy_string outfile = Some o /\ fm = truthy_string format)) /\
  (In show_call events <-> (axes = false /\ truthy_string outfile = None /\ show = true)).
Proof.
  unfold finish.
  destruct axes, sphinx, show, (truthy_string title) as [t|],
    (truthy_string outfile) as [o|];
    cbn [fst snd app In];
    (split; [reflexivity|]); (split; [reflexivity|]);
    (split; [first [reflexivity | exact I]|]);
    (split; [|split]); intros; split; intros H;
    repeat match goal with
           | H : _ \/ _ |- _ => destruct H
           | H : _ /\ _ |- _ => destruct H
           | H : False |- _ => destruct H
           end; try discriminate; subst;
    try match goal with
        | H : savefig_call _ _ = savefig_call _ _ |- _ => injection H as <- <-
        | H : draw_call _ = draw_call _ |- _ => injection H as <-
        | H : Some _ = Some _ |- _ => injection H as <-
        end; auto 10.
Qed.

(** *** Shape *)

(** X19. The amplitude transform keeps the grid aligned with its axes:
    if the estimator's output has one frequency per row and one time per
    column, so has the scaled grid with the shortened frequency vector. *)
Theorem amplitude_transform_keeps_shape (lg sq : Q -> Q) (dbscale : bool)
    (s : matrix) (f t : list Q) :
  well_shaped (s, f, t) ->
  well_shaped (fst (amplitude_transform lg sq dbscale s f),
               snd (amplitude_transform lg sq dbscale s f), t).
Proof.
  intros [Hl Hr]. unfold amplitude_transform.
  assert (Hr' : Forall (fun row => length row = length t) (tl s))
    by (destruct s; [constructor | inversion Hr; assumption]).
  assert (Hl' : length (tl s) = length (tl f))
    by (destruct s, f; cbn in *; lia).
  destruct dbscale; cbn [fst snd]; (split; [rewrite length_map; exact Hl'|]);
    rewrite Forall_forall in *; intros row Hin;
    apply in_map_iff in Hin; destruct Hin as (row0 & <- & Hin0);
    rewrite length_map; apply Hr'; exact Hin0.
Qed.

Lemma amplitude_transform_keeps_shape_witness :
  well_shaped (fst (amplitude_transform Mlab.stand_in Mlab.stand_in true
                      [[5; 6]; [1; 2]; [3; 4]] [0; 10; 20]),
               snd (amplitude_transform Mlab.stand_in Mlab.stand_in true
                      [[5; 6]; [1; 2]; [3; 4]] [0; 10; 20]), [1; 2]).
Proof.
  apply (amplitude_transform_keeps_shape Mlab.stand_in Mlab.stand_in true
           [[5; 6]; [1; 2]; [3; 4]] [0; 10; 20] [1; 2]).
  split; [reflexivity | repeat constructor].
Defined.
